(** * Dat Tin: the game manager's state machine and round lifecycle

    A shallow embedding of [src/js/game-manager.js], of [shuffleArray]
    from [src/js/utils.js], of the constants in [GAME_CONFIG] and of the
    click wiring of the application entry point, followed by the
    properties of the round lifecycle.

    Conventions of the embedding:
    - a method of [GameManager] is a computation in the monad [Js]: it
      takes the object, may throw (an uncaught [TypeError] from reading
      a property of [undefined]) and leaves the object as mutated so far;
    - [window.setInterval], [clearInterval], [alert] and [Math.random]
      are the browser: their state is kept in the same record;
    - calls into the UI manager and the sound manager only write to the
      page and play sounds, they are not part of the state, except for
      the screen [renderScreen] makes active. The argument of such a
      call is still evaluated, and the [TypeError] it can raise is
      modelled;
    - numbers that only count are [nat] (the team count a button
      carries, scores, cursors, handles), the two clocks are [Z]; cards
      are records with a target word and a list of forbidden words, and
      [cardData] is a finite map from deck names to their cards. *)

From stdpp Require Import base list strings gmap pretty.
From Stdlib Require Import ZArith Lia.

Local Open Scope string_scope.
Local Open Scope list_scope.
Local Open Scope nat_scope.

(** ** Constants ([GAME_CONFIG]) *)

Inductive State : Type :=
| WELCOME | TEAM_SELECTION | GET_READY | PLAYING | REVIEW | ROUND_OVER | GAME_OVER.

#[global] Instance State_eq_dec : EqDecision State.
Proof. solve_decision. Defined.

Definition COUNTDOWN_DURATION : Z := 10.
Definition DEFAULT_ROUND_DURATION : Z := 30.
Definition MAX_ROUNDS_PER_TEAM : nat := 3.
Definition TEAM_COLORS : list string :=
  [ "var(--team1-color)"; "var(--team2-color)";
    "var(--team3-color)"; "var(--team4-color)" ].

(** ** Data *)

(** A card of [cards.json]; [category] is absent until the card is put
    in the pool, where the spread [{...card, category: deck}] stamps it. *)
Record Card : Type := MkCard {
  targetWord : string;
  forbiddenWords : list string;
  category : option string
}.

Inductive Status : Type := correct | skipped.

#[global] Instance Status_eq_dec : EqDecision Status.
Proof. solve_decision. Defined.

Record RoundEntry : Type := MkEntry { word : string; status : Status }.

(** [color] is [None] when [TEAM_COLORS[i]] is [undefined]. *)
Record Team : Type := MkTeam {
  name : string;
  score : nat;
  color : option string
}.

(** What a live interval calls when it fires. *)
Inductive IntervalTask : Type :=
| TimerTask       (* () => this.updateTimer() *)
| CountdownTask.  (* the closure built by startCountdown *)

(** The [GameManager] object, and below the line the part of the browser
    the methods act on. [currentTeamIndex] is [None] for [NaN], which the
    remainder by zero in [endRound] produces. *)
Record GameManager : Type := MkGM {
  cardData : gmap string (list Card);
  state : State;
  roundDuration : Z;
  roundScore : nat;
  timeLeft : Z;
  countdownTime : Z;
  timerInterval : option nat;
  countdownInterval : option nat;
  shuffledCards : list Card;
  currentCardIndex : nat;
  roundCards : list RoundEntry;
  numberOfTeams : nat;
  teams : list Team;
  currentTeamIndex : option nat;
  totalRoundsCompleted : nat;
  selectedDecks : list string;
  isPaused : bool;
  (* ---- browser ---- *)
  intervals : gmap nat IntervalTask;  (* live intervals, by handle *)
  nextHandle : nat;                   (* the handle setInterval returns next *)
  entropy : nat -> nat;               (* the source behind Math.random *)
  draws : nat;                        (* calls of Math.random so far *)
  alerts : list string;               (* messages shown by alert *)
  screen : State                      (* the screen renderScreen made active *)
}.

(** Field assignments [this.f = v]. *)
Definition set_state v (g : GameManager) : GameManager :=
  let '(MkGM x0 _ x2 x3 x4 x5 x6 x7 x8 x9 x10 x11 x12 x13 x14 x15 x16 x17 x18 x19 x20 x21 x22) := g in
  MkGM x0 v x2 x3 x4 x5 x6 x7 x8 x9 x10 x11 x12 x13 x14 x15 x16 x17 x18 x19 x20 x21 x22.
Definition set_roundDuration v (g : GameManager) : GameManager :=
  let '(MkGM x0 x1 _ x3 x4 x5 x6 x7 x8 x9 x10 x11 x12 x13 x14 x15 x16 x17 x18 x19 x20 x21 x22) := g in
  MkGM x0 x1 v x3 x4 x5 x6 x7 x8 x9 x10 x11 x12 x13 x14 x15 x16 x17 x18 x19 x20 x21 x22.
Definition set_roundScore v (g : GameManager) : GameManager :=
  let '(MkGM x0 x1 x2 _ x4 x5 x6 x7 x8 x9 x10 x11 x12 x13 x14 x15 x16 x17 x18 x19 x20 x21 x22) := g in
  MkGM x0 x1 x2 v x4 x5 x6 x7 x8 x9 x10 x11 x12 x13 x14 x15 x16 x17 x18 x19 x20 x21 x22.
Definition set_timeLeft v (g : GameManager) : GameManager :=
  let '(MkGM x0 x1 x2 x3 _ x5 x6 x7 x8 x9 x10 x11 x12 x13 x14 x15 x16 x17 x18 x19 x20 x21 x22) := g in
  MkGM x0 x1 x2 x3 v x5 x6 x7 x8 x9 x10 x11 x12 x13 x14 x15 x16 x17 x18 x19 x20 x21 x22.
Definition set_countdownTime v (g : GameManager) : GameManager :=
  let '(MkGM x0 x1 x2 x3 x4 _ x6 x7 x8 x9 x10 x11 x12 x13 x14 x15 x16 x17 x18 x19 x20 x21 x22) := g in
  MkGM x0 x1 x2 x3 x4 v x6 x7 x8 x9 x10 x11 x12 x13 x14 x15 x16 x17 x18 x19 x20 x21 x22.
Definition set_timerInterval v (g : GameManager) : GameManager :=
  let '(MkGM x0 x1 x2 x3 x4 x5 _ x7 x8 x9 x10 x11 x12 x13 x14 x15 x16 x17 x18 x19 x20 x21 x22) := g in
  MkGM x0 x1 x2 x3 x4 x5 v x7 x8 x9 x10 x11 x12 x13 x14 x15 x16 x17 x18 x19 x20 x21 x22.
Definition set_countdownInterval v (g : GameManager) : GameManager :=
  let '(MkGM x0 x1 x2 x3 x4 x5 x6 _ x8 x9 x10 x11 x12 x13 x14 x15 x16 x17 x18 x19 x20 x21 x22) := g in
  MkGM x0 x1 x2 x3 x4 x5 x6 v x8 x9 x10 x11 x12 x13 x14 x15 x16 x17 x18 x19 x20 x21 x22.
Definition set_shuffledCards v (g : GameManager) : GameManager :=
  let '(MkGM x0 x1 x2 x3 x4 x5 x6 x7 _ x9 x10 x11 x12 x13 x14 x15 x16 x17 x18 x19 x20 x21 x22) := g in
  MkGM x0 x1 x2 x3 x4 x5 x6 x7 v x9 x10 x11 x12 x13 x14 x15 x16 x17 x18 x19 x20 x21 x22.
Definition set_currentCardIndex v (g : GameManager) : GameManager :=
  let '(MkGM x0 x1 x2 x3 x4 x5 x6 x7 x8 _ x10 x11 x12 x13 x14 x15 x16 x17 x18 x19 x20 x21 x22) := g in
  MkGM x0 x1 x2 x3 x4 x5 x6 x7 x8 v x10 x11 x12 x13 x14 x15 x16 x17 x18 x19 x20 x21 x22.
Definition set_roundCards v (g : GameManager) : GameManager :=
  let '(MkGM x0 x1 x2 x3 x4 x5 x6 x7 x8 x9 _ x11 x12 x13 x14 x15 x16 x17 x18 x19 x20 x21 x22) := g in
  MkGM x0 x1 x2 x3 x4 x5 x6 x7 x8 x9 v x11 x12 x13 x14 x15 x16 x17 x18 x19 x20 x21 x22.
Definition set_numberOfTeams v (g : GameManager) : GameManager :=
  let '(MkGM x0 x1 x2 x3 x4 x5 x6 x7 x8 x9 x10 _ x12 x13 x14 x15 x16 x17 x18 x19 x20 x21 x22) := g in
  MkGM x0 x1 x2 x3 x4 x5 x6 x7 x8 x9 x10 v x12 x13 x14 x15 x16 x17 x18 x19 x20 x21 x22.
Definition set_teams v (g : GameManager) : GameManager :=
  let '(MkGM x0 x1 x2 x3 x4 x5 x6 x7 x8 x9 x10 x11 _ x13 x14 x15 x16 x17 x18 x19 x20 x21 x22) := g in
  MkGM x0 x1 x2 x3 x4 x5 x6 x7 x8 x9 x10 x11 v x13 x14 x15 x16 x17 x18 x19 x20 x21 x22.
Definition set_currentTeamIndex v (g : GameManager) : GameManager :=
  let '(MkGM x0 x1 x2 x3 x4 x5 x6 x7 x8 x9 x10 x11 x12 _ x14 x15 x16 x17 x18 x19 x20 x21 x22) := g in
  MkGM x0 x1 x2 x3 x4 x5 x6 x7 x8 x9 x10 x11 x12 v x14 x15 x16 x17 x18 x19 x20 x21 x22.
Definition set_totalRoundsCompleted v (g : GameManager) : GameManager :=
  let '(MkGM x0 x1 x2 x3 x4 x5 x6 x7 x8 x9 x10 x11 x12 x13 _ x15 x16 x17 x18 x19 x20 x21 x22) := g in
  MkGM x0 x1 x2 x3 x4 x5 x6 x7 x8 x9 x10 x11 x12 x13 v x15 x16 x17 x18 x19 x20 x21 x22.
Definition set_selectedDecks v (g : GameManager) : GameManager :=
  let '(MkGM x0 x1 x2 x3 x4 x5 x6 x7 x8 x9 x10 x11 x12 x13 x14 _ x16 x17 x18 x19 x20 x21 x22) := g in
  MkGM x0 x1 x2 x3 x4 x5 x6 x7 x8 x9 x10 x11 x12 x13 x14 v x16 x17 x18 x19 x20 x21 x22.
Definition set_isPaused v (g : GameManager) : GameManager :=
  let '(MkGM x0 x1 x2 x3 x4 x5 x6 x7 x8 x9 x10 x11 x12 x13 x14 x15 _ x17 x18 x19 x20 x21 x22) := g in
  MkGM x0 x1 x2 x3 x4 x5 x6 x7 x8 x9 x10 x11 x12 x13 x14 x15 v x17 x18 x19 x20 x21 x22.
Definition set_intervals v (g : GameManager) : GameManager :=
  let '(MkGM x0 x1 x2 x3 x4 x5 x6 x7 x8 x9 x10 x11 x12 x13 x14 x15 x16 _ x18 x19 x20 x21 x22) := g in
  MkGM x0 x1 x2 x3 x4 x5 x6 x7 x8 x9 x10 x11 x12 x13 x14 x15 x16 v x18 x19 x20 x21 x22.
Definition set_nextHandle v (g : GameManager) : GameManager :=
  let '(MkGM x0 x1 x2 x3 x4 x5 x6 x7 x8 x9 x10 x11 x12 x13 x14 x15 x16 x17 _ x19 x20 x21 x22) := g in
  MkGM x0 x1 x2 x3 x4 x5 x6 x7 x8 x9 x10 x11 x12 x13 x14 x15 x16 x17 v x19 x20 x21 x22.
Definition set_draws v (g : GameManager) : GameManager :=
  let '(MkGM x0 x1 x2 x3 x4 x5 x6 x7 x8 x9 x10 x11 x12 x13 x14 x15 x16 x17 x18 x19 _ x21 x22) := g in
  MkGM x0 x1 x2 x3 x4 x5 x6 x7 x8 x9 x10 x11 x12 x13 x14 x15 x16 x17 x18 x19 v x21 x22.
Definition set_alerts v (g : GameManager) : GameManager :=
  let '(MkGM x0 x1 x2 x3 x4 x5 x6 x7 x8 x9 x10 x11 x12 x13 x14 x15 x16 x17 x18 x19 x20 _ x22) := g in
  MkGM x0 x1 x2 x3 x4 x5 x6 x7 x8 x9 x10 x11 x12 x13 x14 x15 x16 x17 x18 x19 x20 v x22.
Definition set_screen v (g : GameManager) : GameManager :=
  let '(MkGM x0 x1 x2 x3 x4 x5 x6 x7 x8 x9 x10 x11 x12 x13 x14 x15 x16 x17 x18 x19 x20 x21 _) := g in
  MkGM x0 x1 x2 x3 x4 x5 x6 x7 x8 x9 x10 x11 x12 x13 x14 x15 x16 x17 x18 x19 x20 x21 v.

(** ** The monad of methods *)

Inductive Completion (A : Type) : Type :=
| Normal (a : A)   (* the call returned [a] *)
| Thrown.          (* the call ended in an uncaught TypeError *)
Arguments Normal {A} a.
Arguments Thrown {A}.

Definition Js (A : Type) : Type := GameManager -> Completion A * GameManager.

#[global] Instance Js_ret : MRet Js := fun A a g => (Normal a, g).
#[global] Instance Js_bind : MBind Js := fun A B f m g =>
  match m g with
  | (Normal a, g') => f a g'
  | (Thrown, g') => (Thrown, g')
  end.

Definition throw {A} : Js A := fun g => (Thrown, g).
Definition read {A} (f : GameManager -> A) : Js A := fun g => (Normal (f g), g).
Definition assign (f : GameManager -> GameManager) : Js unit :=
  fun g => (Normal tt, f g).

(** The object a call leaves behind, whether it returned or threw. *)
Definition after {A} (m : Js A) (g : GameManager) : GameManager := snd (m g).
Definition completion {A} (m : Js A) (g : GameManager) : Completion A := fst (m g).

(** [obj.prop] where [obj] may be [undefined]. *)
Definition defined {A} (o : option A) : Js A :=
  match o with Some a => mret a | None => throw end.

(** ** The browser: intervals, alert, Math.random *)

Definition setInterval (t : IntervalTask) : Js nat := fun g =>
  let h := nextHandle g in
  (Normal h, set_nextHandle (S h) (set_intervals (<[h := t]> (intervals g)) g)).

(** [clearInterval(h)]; with [null] for [h] nothing is cancelled. *)
Definition cancel (h : option nat) (live : gmap nat IntervalTask)
  : gmap nat IntervalTask :=
  match h with
  | Some i => delete i live
  | None => live
  end.
Arguments cancel : simpl never.

Definition clearInterval (h : option nat) : Js unit :=
  assign (fun g => set_intervals (cancel h (intervals g)) g).

Definition alert (msg : string) : Js unit :=
  assign (fun g => set_alerts (alerts g ++ [msg]) g).

(** [ui.renderScreen(this.state)] (ui-manager.js): the screen of the
    given state becomes the active one. *)
Definition renderScreen : Js unit :=
  g ← read id;
  assign (set_screen (state g)).

(** ** [shuffleArray] (utils.js) *)

(** [[a[i], a[j]] = [a[j], a[i]]]. Both indices are inside the array
    wherever [shuffleLoop] calls it; outside, the model leaves [a] alone. *)
Definition swap {A} (i j : nat) (a : list A) : list A :=
  match a !! i, a !! j with
  | Some x, Some y => <[j := x]> (<[i := y]> a)
  | _, _ => a
  end.

(** The loop [for (i = length - 1; i > 0; i--)]. The [k]-th call of
    [Math.random] yields [rnd k]; [Math.floor(Math.random() * (i + 1))]
    is an integer of [0..i], here [rnd k mod (i + 1)]. *)
Fixpoint shuffleLoop {A} (rnd : nat -> nat) (k i : nat) (a : list A) : list A :=
  match i with
  | 0 => a
  | S i' => shuffleLoop rnd (S k) i' (swap i (rnd k mod (i + 1)) a)
  end.

Definition shuffleArray (array : list Card) : Js (list Card) := fun g =>
  (Normal (shuffleLoop (entropy g) (draws g) (length array - 1) array),
   set_draws (draws g + (length array - 1)) g).

(** ** Methods of [GameManager] *)

Definition stamp (deck : string) (card : Card) : Card :=
  MkCard (targetWord card) (forbiddenWords card) (Some deck).

(** The [activeCards] array built by [selectedDecks.forEach]: a JS [Set]
    iterates in insertion order, so the selected decks are a list. A deck
    with no entry in [cardData] contributes nothing. *)
Definition gatherActive (data : gmap string (list Card)) (decks : list string)
  : list Card :=
  flat_map (fun deck =>
    match data !! deck with
    | Some cards => stamp deck <$> cards
    | None => []
    end) decks.

Definition activeCards (g : GameManager) : list Card :=
  gatherActive (cardData g) (selectedDecks g).

Definition setRoundDuration (duration : Z) : Js unit :=
  assign (set_roundDuration duration).

Definition toggleDeck (deck : string) : Js bool :=
  decks ← read selectedDecks;
  if bool_decide (deck ∈ decks) then
    if bool_decide (1 < length decks) then
      assign (set_selectedDecks (filter (fun d => d ≠ deck) decks));;
      mret true
    else mret false
  else
    assign (set_selectedDecks (decks ++ [deck]));;
    mret true.

(** [this.teams[this.currentTeamIndex]] *)
Definition currentTeam (g : GameManager) : option (nat * Team) :=
  match currentTeamIndex g with
  | Some i => (fun t => (i, t)) <$> teams g !! i
  | None => None
  end.

Definition showFinalWinner : Js unit :=
  assign (set_state GAME_OVER);;
  renderScreen.

Definition addScore (n : nat) (t : Team) : Team :=
  MkTeam (name t) (score t + n) (color t).

(** [(i + 1) % n], which is [NaN] for [n = 0]. *)
Definition nextIndex (i n : nat) : option nat :=
  if bool_decide (n = 0) then None else Some ((i + 1) mod n).

(** The last statement reads [this.teams[this.currentTeamIndex].name] for
    the label of the next-round button, which the page has: the entry
    point binds its click. *)
Definition endRound : Js unit :=
  h ← read timerInterval;
  clearInterval h;;
  cur ← read currentTeam;
  '(i, team) ← defined cur;
  g ← read id;
  assign (set_teams (<[i := addScore (roundScore g) team]> (teams g)));;
  assign (set_currentTeamIndex (nextIndex i (numberOfTeams g)));;
  assign (set_totalRoundsCompleted (totalRoundsCompleted g + 1));;
  g ← read id;
  if bool_decide (numberOfTeams g * MAX_ROUNDS_PER_TEAM ≤ totalRoundsCompleted g)
  then showFinalWinner
  else
    assign (set_state ROUND_OVER);;
    renderScreen;;
    next ← read currentTeam;
    _ ← defined next;
    mret tt.

Definition updateCard : Js unit :=
  g ← read id;
  match shuffledCards g !! currentCardIndex g with
  | None => endRound
  | Some card => mret tt
  end.

Definition nextCard : Js unit :=
  g ← read id;
  assign (set_currentCardIndex (currentCardIndex g + 1));;
  g ← read id;
  (if bool_decide (length (shuffledCards g) ≤ currentCardIndex g) then
     cards ← shuffleArray (activeCards g);
     assign (set_shuffledCards cards);;
     assign (set_currentCardIndex 0)
   else mret tt);;
  updateCard.

Definition handleCorrect : Js unit :=
  g ← read id;
  match shuffledCards g !! currentCardIndex g with
  | None => mret tt
  | Some card =>
      assign (set_roundCards (roundCards g ++ [MkEntry (targetWord card) correct]));;
      assign (set_roundScore (roundScore g + 1));;
      nextCard
  end.

Definition handlePass : Js unit :=
  g ← read id;
  match shuffledCards g !! currentCardIndex g with
  | None => mret tt
  | Some card =>
      assign (set_roundCards (roundCards g ++ [MkEntry (targetWord card) skipped]));;
      nextCard
  end.

Definition showReviewScreen : Js unit :=
  assign (set_state REVIEW);;
  h ← read timerInterval;
  clearInterval h;;
  renderScreen.

Definition updateTimer : Js unit :=
  g ← read id;
  if isPaused g then mret tt
  else
    assign (set_timeLeft (timeLeft g - 1)%Z);;
    g ← read id;
    if bool_decide (timeLeft g ≤ 0)%Z then showReviewScreen else mret tt.

Definition startRound : Js unit :=
  assign (set_state PLAYING);;
  assign (set_isPaused false);;
  assign (set_roundCards []);;
  assign (set_roundScore 0);;
  g ← read id;
  assign (set_timeLeft (roundDuration g));;
  cur ← read currentTeam;
  _ ← defined cur;
  renderScreen;;
  updateCard;;
  h ← read timerInterval;
  clearInterval h;;
  h' ← setInterval TimerTask;
  assign (set_timerInterval (Some h')).

(** The callback of the countdown interval. The team it names was
    captured, and was defined, when the interval was created. *)
Definition countdownTick : Js unit :=
  g ← read id;
  assign (set_countdownTime (countdownTime g - 1)%Z);;
  g ← read id;
  if bool_decide (countdownTime g ≤ 0)%Z then
    clearInterval (countdownInterval g);;
    startRound
  else mret tt.

Definition startCountdown : Js unit :=
  assign (set_state GET_READY);;
  assign (set_countdownTime COUNTDOWN_DURATION);;
  cur ← read currentTeam;
  _ ← defined cur;
  renderScreen;;
  h ← read countdownInterval;
  clearInterval h;;
  h' ← setInterval CountdownTask;
  assign (set_countdownInterval (Some h')).

Definition skipCountdown : Js unit :=
  h ← read countdownInterval;
  clearInterval h;;
  startRound.

Definition makeTeam (i : nat) : Team :=
  MkTeam ("Team " +:+ pretty (i + 1)) 0 (TEAM_COLORS !! i).

(** [for (let i = 0; i < this.numberOfTeams; i++) this.teams.push(...)],
    with [todo] iterations left. *)
Fixpoint pushTeams (todo i : nat) (ts : list Team) : list Team :=
  match todo with
  | 0 => ts
  | S todo' => pushTeams todo' (S i) (ts ++ [makeTeam i])
  end.

Definition NO_DECK_MESSAGE : string := "Please select at least one deck!".

Definition setupAndStartGame (teamCount : nat) : Js unit :=
  assign (set_numberOfTeams teamCount);;
  assign (set_teams []);;
  g ← read id;
  assign (set_teams (pushTeams (numberOfTeams g) 0 (teams g)));;
  assign (set_currentTeamIndex (Some 0));;
  assign (set_totalRoundsCompleted 0);;
  active ← read activeCards;
  if bool_decide (length active = 0) then
    alert NO_DECK_MESSAGE
  else
    cards ← shuffleArray active;
    assign (set_shuffledCards cards);;
    assign (set_currentCardIndex 0);;
    startCountdown.

Definition togglePause : Js unit :=
  g ← read id;
  if bool_decide (state g ≠ PLAYING) then mret tt
  else
    assign (set_isPaused (negb (isPaused g)));;
    g ← read id;
    if isPaused g then clearInterval (timerInterval g)
    else
      h ← setInterval TimerTask;
      assign (set_timerInterval (Some h)).

Definition flipStatus (e : RoundEntry) : RoundEntry :=
  MkEntry (word e) (if decide (status e = correct) then skipped else correct).

(** [this.roundCards[index]]: [undefined] below zero and past the end. *)
Definition entryAt (index : Z) (l : list RoundEntry) : option RoundEntry :=
  if bool_decide (0 ≤ index)%Z then l !! Z.to_nat index else None.

Definition toggleCardStatus (index : Z) : Js unit :=
  g ← read id;
  match entryAt index (roundCards g) with
  | Some item =>
      assign (set_roundCards (<[Z.to_nat index := flipStatus item]> (roundCards g)))
  | None => mret tt
  end.

Definition countCorrect (l : list RoundEntry) : nat :=
  length (filter (fun c => status c = correct) l).

Definition confirmScore : Js unit :=
  g ← read id;
  assign (set_roundScore (countCorrect (roundCards g)));;
  endRound.

Definition resetGame : Js unit :=
  h ← read timerInterval;
  clearInterval h;;
  h ← read countdownInterval;
  clearInterval h;;
  assign (set_state TEAM_SELECTION);;
  assign (set_totalRoundsCompleted 0);;
  renderScreen.

(** [confirmed] is the answer to the [confirm] dialog. *)
Definition quitGame (confirmed : bool) : Js unit :=
  if confirmed then
    h ← read timerInterval;
    clearInterval h;;
    h ← read countdownInterval;
    clearInterval h;;
    assign (set_isPaused false);;
    assign (set_state WELCOME);;
    assign (set_totalRoundsCompleted 0);;
    assign (set_currentCardIndex 0);;
    assign (set_roundScore 0);;
    renderScreen
  else mret tt.

(** The object the constructor builds in a fresh page, once the entry
    point has rendered its first screen. *)
Definition newGame (data : gmap string (list Card)) (rnd : nat -> nat)
  : GameManager :=
  {| cardData := data;
     state := WELCOME;
     roundDuration := DEFAULT_ROUND_DURATION;
     roundScore := 0;
     timeLeft := DEFAULT_ROUND_DURATION;
     countdownTime := COUNTDOWN_DURATION;
     timerInterval := None;
     countdownInterval := None;
     shuffledCards := [];
     currentCardIndex := 0;
     roundCards := [];
     numberOfTeams := 0;
     teams := [];
     currentTeamIndex := Some 0;
     totalRoundsCompleted := 0;
     selectedDecks := ["naija"];
     isPaused := false;
     intervals := ∅;
     nextHandle := 1;
     entropy := rnd;
     draws := 0;
     alerts := [];
     screen := WELCOME |}.

(** ** The page: clicks and interval callbacks (application entry point) *)

Inductive Event : Type :=
| PlayNow                       (* play-now-btn *)
| TeamCount (teamCount : nat)   (* a .team-count-btn *)
| DeckOption (deck : string)    (* a .deck-option *)
| TimerOption (duration : Z)    (* a .timer-btn *)
| NextRound                     (* next-round-btn *)
| NewGame                       (* new-game-btn, play-again-btn *)
| SkipCountdown                 (* skip-countdown-btn *)
| CorrectBtn                    (* correct-btn *)
| PassBtn                       (* pass-btn *)
| ConfirmScore                  (* confirm-score-btn *)
| Pause                         (* pause-btn, resume-btn *)
| Quit (confirmed : bool)       (* quit-game-btn, quit-pause-btn *)
| ReviewToggle (index : Z)      (* window.toggleCardStatus, review list *)
| IntervalFires (handle : nat). (* the browser runs an interval *)

Definition handler (e : Event) : Js unit :=
  match e with
  | PlayNow => assign (set_state TEAM_SELECTION);; renderScreen
  | TeamCount n => setupAndStartGame n
  | DeckOption deck => _ ← toggleDeck deck; mret tt
  | TimerOption d => setRoundDuration d
  | NextRound => startCountdown
  | NewGame => resetGame
  | SkipCountdown => skipCountdown
  | CorrectBtn => handleCorrect
  | PassBtn => handlePass
  | ConfirmScore => confirmScore
  | Pause => togglePause
  | Quit confirmed => quitGame confirmed
  | ReviewToggle index => toggleCardStatus index
  | IntervalFires h =>
      g ← read id;
      match intervals g !! h with
      | Some TimerTask => updateTimer
      | Some CountdownTask => countdownTick
      | None => mret tt
      end
  end.

(** An event handler runs to completion; an exception it does not catch
    ends it and the object stays as it is. *)
Definition fire (e : Event) (g : GameManager) : GameManager := after (handler e) g.

Definition run (es : list Event) (g : GameManager) : GameManager :=
  foldl (fun g e => fire e g) g es.

(** Modelled from the spec: the markup of the page (index.html and its
    style sheet) is missing from the sources, so which control is on
    which screen follows the transition table of the state machine: play
    on WELCOME; team count, deck and round-time options on TEAM_SELECTION;
    skip on GET_READY; correct, pass and pause/resume on PLAYING; the
    review list and confirm on REVIEW; next round on ROUND_OVER; reset on
    TEAM_SELECTION, ROUND_OVER and GAME_OVER; quit anywhere. A control can
    be clicked when its screen is the active one; a live interval can
    fire at any time. *)
Definition offered (scr : State) (e : Event) : bool :=
  match e with
  | PlayNow => bool_decide (scr = WELCOME)
  | TeamCount _ | DeckOption _ | TimerOption _ => bool_decide (scr = TEAM_SELECTION)
  | NextRound => bool_decide (scr = ROUND_OVER)
  | NewGame => bool_decide (scr ∈ [TEAM_SELECTION; ROUND_OVER; GAME_OVER])
  | SkipCountdown => bool_decide (scr = GET_READY)
  | CorrectBtn | PassBtn | Pause => bool_decide (scr = PLAYING)
  | ConfirmScore | ReviewToggle _ => bool_decide (scr = REVIEW)
  | Quit _ => true
  | IntervalFires _ => true
  end.

(** A session: the events of [es] in order, each offered by the screen
    that is active when it happens. *)
Fixpoint play (es : list Event) (g : GameManager) : option GameManager :=
  match es with
  | [] => Some g
  | e :: es' => if offered (screen g) e then play es' (fire e g) else None
  end.

(** ** Sequences of calls *)

(** Every method of the class, and the countdown closure, for claims
    about whatever is called on the object. *)
Inductive Call : Type :=
| CsetRoundDuration (duration : Z)
| CtoggleDeck (deck : string)
| CsetupAndStartGame (teamCount : nat)
| CstartCountdown
| CcountdownTick
| CskipCountdown
| CstartRound
| CupdateTimer
| CupdateCard
| CnextCard
| ChandleCorrect
| ChandlePass
| CtogglePause
| CshowReviewScreen
| CtoggleCardStatus (index : Z)
| CconfirmScore
| CendRound
| CshowFinalWinner
| CresetGame
| CquitGame (confirmed : bool).

Definition invoke (c : Call) : Js unit :=
  match c with
  | CsetRoundDuration d => setRoundDuration d
  | CtoggleDeck deck => _ ← toggleDeck deck; mret tt
  | CsetupAndStartGame n => setupAndStartGame n
  | CstartCountdown => startCountdown
  | CcountdownTick => countdownTick
  | CskipCountdown => skipCountdown
  | CstartRound => startRound
  | CupdateTimer => updateTimer
  | CupdateCard => updateCard
  | CnextCard => nextCard
  | ChandleCorrect => handleCorrect
  | ChandlePass => handlePass
  | CtogglePause => togglePause
  | CshowReviewScreen => showReviewScreen
  | CtoggleCardStatus i => toggleCardStatus i
  | CconfirmScore => confirmScore
  | CendRound => endRound
  | CshowFinalWinner => showFinalWinner
  | CresetGame => resetGame
  | CquitGame b => quitGame b
  end.

Definition invokeAll (cs : list Call) (g : GameManager) : GameManager :=
  foldl (fun g c => after (invoke c) g) g cs.

(** The click that resolves the card on display with status [st]. *)
Definition resolveCard (st : Status) : Js unit :=
  match st with
  | correct => handleCorrect
  | skipped => handlePass
  end.

(** [sts] correct/pass clicks in a row, and review toggles in a row. *)
Definition resolveAll (sts : list Status) (g : GameManager) : GameManager :=
  foldl (fun g st => after (resolveCard st) g) g sts.

Definition toggleAll (ixs : list Z) (g : GameManager) : GameManager :=
  foldl (fun g i => after (toggleCardStatus i) g) g ixs.

(** The statuses of a round record after a review toggle at [index]: an
    index inside the record swaps the status there, any other index
    changes nothing. Folded over the record's statuses it gives what
    toggles in a row should leave. *)
Definition swapStatus (s : Status) : Status :=
  match s with
  | correct => skipped
  | skipped => correct
  end.

Definition statusesAfterToggle (sts : list Status) (index : Z) : list Status :=
  if bool_decide (0 ≤ index)%Z then alter swapStatus (Z.to_nat index) sts else sts.

(** What [setupAndStartGame] has written when it reaches the deck check. *)
Definition seatTeams (teamCount : nat) (g : GameManager) : GameManager :=
  set_totalRoundsCompleted 0
    (set_currentTeamIndex (Some 0)
       (set_teams (pushTeams teamCount 0 [])
          (set_numberOfTeams teamCount g))).

#[global] Instance Event_eq_dec : EqDecision Event.
Proof. solve_decision. Defined.

(** How many round confirmations a stretch of a session holds. *)
Definition confirmations (es : list Event) : nat :=
  length (filter (fun e => e = ConfirmScore) es).

Definition isSetup (e : Event) : bool :=
  match e with TeamCount _ => true | _ => false end.

(** The turn pointer after one event that is no new setup. *)
Definition turnAfter (e : Event) (teamCount : nat) (turn : option nat) : option nat :=
  match e with
  | ConfirmScore => (fun i => (i + 1) mod teamCount) <$> turn
  | _ => turn
  end.

(** ** Invariants *)

(** A card is on display and the selected decks can refill the pool. *)
Definition serving (g : GameManager) : Prop :=
  currentCardIndex g < length (shuffledCards g) ∧ activeCards g ≠ [].

(** The selected decks are a set, and not the empty one. *)
Definition decksOk (g : GameManager) : Prop :=
  NoDup (selectedDecks g) ∧ selectedDecks g ≠ [].

(** The screens of a running game. *)
Definition inPlay (s : State) : bool :=
  match s with WELCOME | TEAM_SELECTION => false | _ => true end.

(** What holds of the object all along a session: the team list has
    [numberOfTeams] entries and the turn pointer is inside it; a live
    round interval is the one in [timerInterval], on the PLAYING screen
    and not paused; a live countdown interval is the one in
    [countdownInterval], on the GET_READY screen; on the screens of a
    running game the phase is the one on screen, there is a team, a card
    is served, and the completed rounds are below [3 * numberOfTeams],
    or equal to it on the GAME_OVER screen. *)
Record inv (g : GameManager) : Prop := MkInv {
  inv_teams : length (teams g) = numberOfTeams g;
  inv_turn : numberOfTeams g ≠ 0 →
             ∃ i, currentTeamIndex g = Some i ∧ i < numberOfTeams g;
  inv_timer : ∀ h, intervals g !! h = Some TimerTask →
              screen g = PLAYING ∧ timerInterval g = Some h ∧ isPaused g = false;
  inv_countdown : ∀ h, intervals g !! h = Some CountdownTask →
                  screen g = GET_READY ∧ countdownInterval g = Some h;
  inv_play : inPlay (screen g) = true →
             state g = screen g ∧ numberOfTeams g ≠ 0 ∧ serving g
             ∧ (screen g = GAME_OVER →
                  totalRoundsCompleted g = numberOfTeams g * MAX_ROUNDS_PER_TEAM)
             ∧ (screen g ≠ GAME_OVER →
                  totalRoundsCompleted g < numberOfTeams g * MAX_ROUNDS_PER_TEAM);
  inv_over : state g = GAME_OVER → screen g = GAME_OVER
}.

(** ** Objects of the examples *)

(** A one-card deck, and a game on it whose random source is [k ↦ k]. *)
Definition lagos : Card := MkCard "Lagos" ["City"; "Naija"] None.
Definition demoData : gmap string (list Card) := {[ "naija" := [lagos] ]}.
Definition demoGame : GameManager := newGame demoData (fun k => k).

(** [demoGame] with two teams, waiting on the countdown; then playing;
    then with one card resolved as correct; then with a second one
    passed; and paused after the first card. *)
Definition demoReady : GameManager := run [PlayNow; TeamCount 2] demoGame.
Definition demoPlaying : GameManager := fire SkipCountdown demoReady.
Definition demoOneCorrect : GameManager := fire CorrectBtn demoPlaying.
Definition demoTwoCards : GameManager := fire PassBtn demoOneCorrect.
Definition demoPaused : GameManager := fire Pause demoOneCorrect.

(** The fresh game with the global deck selected in place of naija,
    for which the demo data has no cards. *)
Definition demoNoCards : GameManager :=
  run [PlayNow; DeckOption "global"; DeckOption "naija"] demoGame.

(** A finished round of two teams, back on team selection with the
    empty global deck selected. *)
Definition demoSecondSetup : GameManager :=
  run [PlayNow; TimerOption 1; TeamCount 2; SkipCountdown; CorrectBtn;
       IntervalFires 2; ConfirmScore; NewGame;
       DeckOption "global"; DeckOption "naija"] demoGame.

(** A whole game of one team, with a round time of one second: the
    session up to the review of the first round, and up to the review
    of the third. *)
Definition demoFirstRound : list Event :=
  [PlayNow; TimerOption 1; TeamCount 1; SkipCountdown; CorrectBtn; IntervalFires 2].
Definition demoThreeRounds : list Event :=
  demoFirstRound
  ++ [ConfirmScore; NextRound; SkipCountdown; PassBtn; IntervalFires 4;
      ConfirmScore; NextRound; SkipCountdown; CorrectBtn; IntervalFires 6].
Definition demoFirstReview : GameManager := run demoFirstRound demoGame.
Definition demoLastReview : GameManager := run demoThreeRounds demoGame.

(** Two teams, one-second rounds: the session up to the first review,
    and the stretch from there through two confirmations. *)
Definition demoDuoRound : list Event :=
  [PlayNow; TimerOption 1; TeamCount 2; SkipCountdown; CorrectBtn; IntervalFires 2].
Definition demoDuoCycle : list Event :=
  [ConfirmScore; NextRound; SkipCountdown; PassBtn; IntervalFires 4; ConfirmScore].
Definition demoDuoReview : GameManager := run demoDuoRound demoGame.

(** ** Further definitions: points, and what a confirmation is worth *)

(** The points of all teams together. *)
Definition totalScore (ts : list Team) : nat := sum_list (score <$> ts).

(** The demo round after its first card, with the empty global deck
    then selected in place of naija by calls of [toggleDeck]. *)
Definition demoDry : GameManager :=
  after (toggleDeck "naija") (after (toggleDeck "global") demoOneCorrect).

(** What also holds all along a session: while PLAYING the provisional
    score is the number of correct entries of the round record, and
    while a game runs the pool is a rearrangement of the cards of the
    selected decks. *)
Record inv2 (g : GameManager) : Prop := MkInv2 {
  inv_provisional : screen g = PLAYING →
                    roundScore g = countCorrect (roundCards g);
  inv_pool : inPlay (screen g) = true → shuffledCards g ≡ₚ activeCards g
}.

(** ** [loadCards] (utils.js) *)





(** ** The scoreboards and the review list (ui-manager.js) *)

(** [[...teams].sort((a, b) => b.score - a.score)]: by falling score,
    teams of equal score in the order they had ([sort] is stable, and a
    stable sort by a key has one possible result). The result is built
    here by inserting the teams from the last to the first. *)
Fixpoint insertByScore (t : Team) (sorted : list Team) : list Team :=
  match sorted with
  | [] => [t]
  | u :: rest =>
      if bool_decide (score t < score u) then u :: insertByScore t rest
      else t :: sorted
  end.

Definition sortByScore (ts : list Team) : list Team := foldr insertByScore [] ts.

(** A [div.scoreboard-item]: its background colour and the texts of its
    two spans. *)
Record ScoreRow : Type := MkRow {
  rowColor : option string;
  rowName : string;
  rowScore : nat
}.

Definition teamRow (t : Team) : ScoreRow := MkRow (color t) (name t) (score t).

(** What [updateScoreboard] writes to the page, all its elements being
    there: the texts of the winner display and the rows. *)
Record Scoreboard : Type := MkBoard {
  winnerName : string;
  winnerScore : string;
  winnerBackground : string;
  rows : list ScoreRow
}.

(** A colour inside a template literal. *)
Definition colorText (c : option string) : string := default "undefined" c.

(** [leadingTeam.name] is a TypeError when there is no team. *)
Definition updateScoreboard (teams : list Team) : Completion Scoreboard :=
  let sortedTeams := sortByScore teams in
  match head sortedTeams with
  | None => Thrown
  | Some leadingTeam =>
      Normal
        {| winnerName := name leadingTeam;
           winnerScore := pretty (score leadingTeam) +:+ " points";
           winnerBackground :=
             "linear-gradient(135deg, " +:+ colorText (color leadingTeam)
             +:+ ", var(--yellow-300))";
           rows := teamRow <$> sortedTeams |}
  end.

Definition positionLabel (index : nat) : string :=
  match index with
  | 0 => "🥇"
  | 1 => "🥈"
  | 2 => "🥉"
  | _ => pretty (index + 1) +:+ "."
  end.

Record FinalScoreboard : Type := MkFinal {
  championName : string;
  championScore : string;
  finalRows : list ScoreRow
}.

Definition updateFinalScoreboard (teams : list Team) : Completion FinalScoreboard :=
  let sortedTeams := sortByScore teams in
  match head sortedTeams with
  | None => Thrown
  | Some champion =>
      Normal
        {| championName := name champion;
           championScore := pretty (score champion) +:+ " Total Points";
           finalRows :=
             imap (fun index team =>
                     MkRow (color team)
                       (positionLabel index +:+ " " +:+ name team)
                       (score team)) sortedTeams |}
  end.

(** By falling score. *)
Definition descending (l : list Team) : Prop :=
  ∀ i j a b, i < j → l !! i = Some a → l !! j = Some b → score b ≤ score a.

(** A [li.review-item]: the word, the class and label of its button, and
    the index its [onclick] passes to [window.toggleCardStatus]. *)
Record ReviewRow : Type := MkReviewRow {
  reviewWord : string;
  reviewClass : string;
  reviewLabel : string;
  reviewClick : Z
}.

Definition reviewRow (index : nat) (item : RoundEntry) : ReviewRow :=
  MkReviewRow (word item)
    (if decide (status item = correct) then "correct" else "pass")
    (if decide (status item = correct) then "Correct" else "Pass")
    (Z.of_nat index).

(** [updateReviewScore]: the number on the review screen. *)
Definition updateReviewScore (roundCards : list RoundEntry) : nat :=
  length (filter (fun c => status c = correct) roundCards).

(** What [UIManager.showReviewScreen] writes: the list and the score. *)
Definition showReviewList (roundCards : list RoundEntry) : list ReviewRow * nat :=
  (imap reviewRow roundCards, updateReviewScore roundCards).

(** * Properties *)

Ltac js :=
  unfold after, completion, handler, fire in *;
  unfold mbind, Js_bind, mret, Js_ret, read, assign, throw, defined in *.

(** Case analysis on the innermost scrutinee of a [match]. *)
Ltac split_on x :=
  lazymatch x with
  | context [match ?y with _ => _ end] => split_on y
  | context [bool_decide ?P] => destruct (decide P);
      [rewrite (bool_decide_eq_true_2 P) in * by assumption
      |rewrite (bool_decide_eq_false_2 P) in * by assumption]
  | context [@fmap option _ _ _ _ ?y] => split_on y
  | _ => first [ match goal with H : x = _ |- _ => rewrite H in * end
               | destruct x eqn:? ]
  end.

(** Symbolic execution of a method on an object given field by field. *)
Ltac js_run :=
  repeat first
    [ progress cbn in *
    | progress js
    | progress simplify_eq
    | match goal with
      | |- context [match ?x with _ => _ end] => split_on x
      end ].

(** ** The pool *)

Lemma swap_perm {A} (i j : nat) (a : list A) : swap i j a ≡ₚ a.
Proof.
  unfold swap.
  destruct (a !! i) as [x|] eqn:Hi; [|done].
  destruct (a !! j) as [y|] eqn:Hj; [|done].
  by apply Permutation_insert_swap.
Qed.

Lemma shuffleLoop_perm {A} rnd (i : nat) : ∀ k (a : list A),
  shuffleLoop rnd k i a ≡ₚ a.
Proof.
  induction i as [|i IH]; intros k a; simpl; [done|].
  rewrite IH. apply swap_perm.
Qed.

Lemma shuffleArray_perm (l : list Card) g :
  ∃ l', shuffleArray l g = (Normal l', set_draws (draws g + (length l - 1)) g)
        ∧ l' ≡ₚ l.
Proof.
  eexists. split; [reflexivity|]. apply shuffleLoop_perm.
Qed.

Lemma shuffleLoop_length {A} rnd i k (a : list A) :
  length (shuffleLoop rnd k i a) = length a.
Proof. apply Permutation_length, shuffleLoop_perm. Qed.

Lemma gatherActive_nil data decks :
  gatherActive data decks = [] ↔
  ∀ d, d ∈ decks → data !! d = None ∨ data !! d = Some [].
Proof.
  unfold gatherActive. induction decks as [|d ds IH]; simpl.
  - split; [|done]. intros _ d Hd. by apply elem_of_nil in Hd.
  - split.
    + intros [H1 H2]%app_eq_nil d' [Heq|Hd']%elem_of_cons.
      * subst d'. destruct (data !! d) as [cs|]; [right|by left].
        destruct cs; [done|discriminate].
      * by apply IH.
    + intros H. apply app_nil. split.
      * destruct (H d) as [->| ->]; [by left|done|done].
      * apply IH. intros d' Hd'. apply H. by right.
Qed.

(** What [nextCard] computes, in its two cases. *)
Lemma nextCard_advance g :
  currentCardIndex g + 1 < length (shuffledCards g) →
  nextCard g = (Normal tt, set_currentCardIndex (currentCardIndex g + 1) g).
Proof.
  intros Hlt. destruct g; unfold nextCard, updateCard; js; cbn in *.
  rewrite bool_decide_eq_false_2 by lia. cbn.
  destruct (lookup_lt_is_Some_2 _ _ Hlt) as [c ->]. done.
Qed.

Lemma nextCard_replenish g :
  length (shuffledCards g) ≤ currentCardIndex g + 1 →
  activeCards g ≠ [] →
  ∃ pool, pool ≡ₚ activeCards g ∧
    nextCard g =
      (Normal tt,
       set_currentCardIndex 0
         (set_shuffledCards pool
            (set_draws (draws g + (length (activeCards g) - 1)) g))).
Proof.
  intros Hge Hne. destruct g; unfold nextCard, updateCard, activeCards in *; js; cbn in *.
  rewrite bool_decide_eq_true_2 by lia. cbn.
  match goal with |- context [shuffleLoop ?r ?k ?i ?a] =>
    pose proof (shuffleLoop_length r i k a) as Hlen;
    pose proof (shuffleLoop_perm r i k a) as Hperm;
    destruct (shuffleLoop r k i a) as [|c pool] eqn:Hs end.
  - symmetry in Hlen. apply length_zero_iff_nil in Hlen. done.
  - exists (c :: pool). split; [exact Hperm|]. reflexivity.
Qed.

(** [nextCard] touches the pool, the cursor and the random source only. *)
Lemma nextCard_frame g :
  activeCards g ≠ [] →
  ∃ pool i d,
    nextCard g =
      (Normal tt, set_currentCardIndex i (set_shuffledCards pool (set_draws d g)))
    ∧ i < length pool.
Proof.
  intros Hne.
  destruct (decide (currentCardIndex g + 1 < length (shuffledCards g))) as [Hlt|Hge].
  - exists (shuffledCards g), (currentCardIndex g + 1), (draws g).
    rewrite (nextCard_advance g Hlt). by destruct g.
  - destruct (nextCard_replenish g) as (pool & Hperm & ->); [lia|done|].
    exists pool, 0, (draws g + (length (activeCards g) - 1)).
    split; [done|]. rewrite (Permutation_length Hperm).
    destruct (activeCards g); [done|simpl; lia].
Qed.

(** C5. As long as the selected decks hold a card between them,
    [nextCard] returns with a card under the cursor: past the end of the
    pool it rebuilds the pool as a shuffle (a permutation) of the active
    cards and puts the cursor at 0, otherwise it moves the cursor by one;
    either way the cursor is strictly below the pool length and the round
    is not ended. *)
Theorem nextCard_always_serves (g : GameManager) :
  activeCards g ≠ [] →
  let g' := after nextCard g in
  completion nextCard g = Normal tt
  ∧ (∃ card, shuffledCards g' !! currentCardIndex g' = Some card)
  ∧ currentCardIndex g' < length (shuffledCards g')
  ∧ (length (shuffledCards g) ≤ currentCardIndex g + 1 →
       shuffledCards g' ≡ₚ activeCards g ∧ currentCardIndex g' = 0)
  ∧ (currentCardIndex g + 1 < length (shuffledCards g) →
       shuffledCards g' = shuffledCards g
       ∧ currentCardIndex g' = currentCardIndex g + 1)
  ∧ state g' = state g ∧ selectedDecks g' = selectedDecks g.
Proof.
  intros Hne g'. subst g'. unfold after, completion.
  destruct (decide (currentCardIndex g + 1 < length (shuffledCards g))) as [Hlt|Hge].
  - rewrite (nextCard_advance g Hlt). destruct g; cbn in *.
    split; [done|]. split; [by apply lookup_lt_is_Some_2|].
    split; [done|]. split; [lia|]. done.
  - destruct (nextCard_replenish g) as (pool & Hperm & ->); [lia|done|].
    assert (0 < length pool) as Hpos.
    { rewrite (Permutation_length Hperm).
      destruct (activeCards g); [done|simpl; lia]. }
    destruct g; cbn in *.
    split; [done|]. split; [by apply lookup_lt_is_Some_2|].
    split; [done|]. split; [done|]. split; [lia|done].
Qed.

(** The selected decks of [demoGame] hold one card: after it is
    resolved the pool is rebuilt and serves it again. *)
Lemma nextCard_always_serves_witness :
  ∃ card, shuffledCards (after nextCard demoPlaying)
            !! currentCardIndex (after nextCard demoPlaying) = Some card.
Proof.
  refine (proj1 (proj2 (nextCard_always_serves demoPlaying _))).
  vm_compute. discriminate.
Defined.

(** ** The round record *)

Lemma resolveCard_serving st g :
  serving g →
  let g' := after (resolveCard st) g in
  serving g'
  ∧ status <$> roundCards g' = (status <$> roundCards g) ++ [st]
  ∧ completion (resolveCard st) g = Normal tt.
Proof.
  intros [Hidx Hne].
  destruct (lookup_lt_is_Some_2 _ _ Hidx) as [card Hcard].
  set (g1 := set_roundCards (roundCards g ++ [MkEntry (targetWord card) st]) g).
  set (g2 := match st with
             | correct => set_roundScore (roundScore g + 1) g1
             | skipped => g1
             end).
  assert (resolveCard st g = nextCard g2) as Heq.
  { subst g2 g1. destruct st; unfold resolveCard, handleCorrect, handlePass;
      js; cbn; rewrite Hcard; destruct g; reflexivity. }
  assert (activeCards g2 = activeCards g ∧
          roundCards g2 = roundCards g ++ [MkEntry (targetWord card) st])
    as [Hact Hrc].
  { subst g2 g1. destruct st, g; done. }
  destruct (nextCard_frame g2) as (pool & i & d & Hnext & Hi); [by rewrite Hact|].
  cbn. unfold after, completion. rewrite Heq, Hnext. cbn.
  split; [|split; [|done]].
  - split; destruct g2; cbn in *; [done|]. by rewrite <- Hact in Hne.
  - replace (roundCards (set_currentCardIndex i
               (set_shuffledCards pool (set_draws d g2)))) with (roundCards g2)
      by (by destruct g2).
    rewrite Hrc, fmap_app. done.
Qed.

Lemma resolveAll_serving sts : ∀ g,
  serving g →
  serving (resolveAll sts g)
  ∧ status <$> roundCards (resolveAll sts g) = (status <$> roundCards g) ++ sts.
Proof.
  induction sts as [|st sts IH]; intros g Hg; simpl.
  - by rewrite app_nil_r.
  - destruct (resolveCard_serving st g Hg) as (Hg' & Hrc & _).
    destruct (IH _ Hg') as [Hs Hr]. split; [done|].
    rewrite Hr, Hrc, <- app_assoc. done.
Qed.

Lemma toggleCardStatus_frame index g :
  ∃ rc, toggleCardStatus index g = (Normal tt, set_roundCards rc g)
        ∧ length rc = length (roundCards g).
Proof.
  unfold toggleCardStatus. js. cbn.
  destruct (entryAt index (roundCards g)) as [item|].
  - eexists. split; [reflexivity|]. by rewrite length_insert.
  - exists (roundCards g). by destruct g.
Qed.

Lemma toggleAll_roundScore ixs : ∀ g, roundScore (toggleAll ixs g) = roundScore g.
Proof.
  induction ixs as [|i ixs IH]; intros g; simpl; [done|].
  rewrite IH. unfold after.
  destruct (toggleCardStatus_frame i g) as (rc & -> & _). by destruct g.
Qed.

Lemma startRound_roundCards g : roundCards (after startRound g) = [].
Proof.
  destruct g. unfold startRound, updateCard, endRound, showFinalWinner,
    renderScreen, setInterval, clearInterval, currentTeam.
  js_run; done.
Qed.

Lemma confirmScore_roundScore g :
  roundScore (after confirmScore g) = countCorrect (roundCards g).
Proof.
  destruct g. unfold confirmScore, endRound, showFinalWinner,
    renderScreen, clearInterval, currentTeam.
  js_run; done.
Qed.

Lemma startRound_roundScore g : roundScore (after startRound g) = 0.
Proof.
  destruct g. unfold startRound, updateCard, endRound, showFinalWinner,
    renderScreen, setInterval, clearInterval, currentTeam.
  js_run; done.
Qed.

Lemma resolveCard_roundScore st g :
  serving g →
  roundScore (after (resolveCard st) g)
  = roundScore g + count_occ Status_eq_dec [st] correct.
Proof.
  intros [Hidx Hne].
  destruct (lookup_lt_is_Some_2 _ _ Hidx) as [card Hcard].
  set (g1 := set_roundCards (roundCards g ++ [MkEntry (targetWord card) st]) g).
  set (g2 := match st with
             | correct => set_roundScore (roundScore g + 1) g1
             | skipped => g1
             end).
  assert (resolveCard st g = nextCard g2) as Heq.
  { subst g2 g1. destruct st; unfold resolveCard, handleCorrect, handlePass;
      js; cbn; rewrite Hcard; destruct g; reflexivity. }
  assert (activeCards g2 = activeCards g
          ∧ roundScore g2 = roundScore g + count_occ Status_eq_dec [st] correct)
    as [Hact Hrs].
  { subst g2 g1. destruct st, g; cbn; split; try done; lia. }
  destruct (nextCard_frame g2) as (pool & i & d & Hnext & _); [by rewrite Hact|].
  unfold after. rewrite Heq, Hnext, <- Hrs. clear. by destruct g2.
Qed.

Lemma resolveAll_roundScore sts : ∀ g,
  serving g →
  roundScore (resolveAll sts g) = roundScore g + count_occ Status_eq_dec sts correct.
Proof.
  induction sts as [|st sts IH]; intros g Hg.
  - simpl. lia.
  - change (resolveAll (st :: sts) g) with (resolveAll sts (after (resolveCard st) g)).
    destruct (resolveCard_serving st g Hg) as (Hg' & _ & _).
    rewrite (IH _ Hg'), (resolveCard_roundScore st g Hg).
    change (st :: sts) with ([st] ++ sts). rewrite count_occ_app. lia.
Qed.

Lemma countCorrect_count_occ (l : list RoundEntry) :
  countCorrect l = count_occ Status_eq_dec (status <$> l) correct.
Proof.
  unfold countCorrect. induction l as [|e l IH]; [done|].
  rewrite filter_cons, fmap_cons. cbn.
  destruct (Status_eq_dec (status e) correct) as [E|E];
    case_decide; try done; cbn; by rewrite IH.
Qed.

Lemma statuses_insert_flip (l : list RoundEntry) : ∀ i item,
  l !! i = Some item →
  status <$> <[i:=flipStatus item]> l = alter swapStatus i (status <$> l).
Proof.
  induction l as [|e l IH]; intros [|i] item Hitem; simplify_eq/=.
  - by destruct (status item).
  - f_equal. by apply IH.
Qed.

Lemma statuses_alter_outside (l : list RoundEntry) : ∀ i,
  l !! i = None → alter swapStatus i (status <$> l) = status <$> l.
Proof.
  induction l as [|e l IH]; intros [|i] Hi; simplify_eq/=; [done|done|].
  f_equal. by apply IH.
Qed.

Lemma toggleCardStatus_statuses index g :
  status <$> roundCards (after (toggleCardStatus index) g)
  = statusesAfterToggle (status <$> roundCards g) index.
Proof.
  unfold toggleCardStatus, entryAt, statusesAfterToggle, after. js. cbn.
  destruct (bool_decide (0 ≤ index)%Z); [|by destruct g].
  destruct (roundCards g !! Z.to_nat index) as [item|] eqn:Hitem.
  - rewrite <- (statuses_insert_flip _ _ _ Hitem). by destruct g.
  - rewrite (statuses_alter_outside _ _ Hitem). by destruct g.
Qed.

Lemma toggleAll_statuses ixs : ∀ g,
  status <$> roundCards (toggleAll ixs g)
  = foldl statusesAfterToggle (status <$> roundCards g) ixs.
Proof.
  induction ixs as [|i ixs IH]; intros g; [done|].
  change (toggleAll (i :: ixs) g) with (toggleAll ixs (after (toggleCardStatus i) g)).
  rewrite IH, toggleCardStatus_statuses. done.
Qed.

(** C1. A round starts with an empty record ([startRound]); while a
    card is served, [N] correct/pass clicks leave exactly [N] entries
    with the clicked statuses, in order, and a provisional score that
    is the number of correct clicks. Review toggles keep the number of
    entries, swap the status of the entry they name, and do not touch
    the round score; [confirmScore] then sets it to the number of
    statuses that are [correct] after the toggles, counted on the
    statuses and not taken from the provisional score. *)
Theorem round_record_and_confirmed_score
    (g : GameManager) (sts : list Status) (ixs : list Z) :
  let g0 := after startRound g in
  serving g0 →
  let g1 := resolveAll sts g0 in
  let g2 := toggleAll ixs g1 in
  roundCards g0 = []
  ∧ length (roundCards g1) = length sts
  ∧ status <$> roundCards g1 = sts
  ∧ roundScore g1 = count_occ Status_eq_dec sts correct
  ∧ length (roundCards g2) = length sts
  ∧ status <$> roundCards g2 = foldl statusesAfterToggle sts ixs
  ∧ roundScore g2 = roundScore g1
  ∧ roundScore (after confirmScore g2)
    = count_occ Status_eq_dec (foldl statusesAfterToggle sts ixs) correct.
Proof.
  intros g0 Hserv g1 g2.
  assert (roundCards g0 = []) as H0 by apply startRound_roundCards.
  destruct (resolveAll_serving sts g0 Hserv) as [_ Hst].
  rewrite H0 in Hst. simpl in Hst. fold g1 in Hst.
  assert (length (roundCards g1) = length sts) as Hlen.
  { rewrite <- (length_fmap status), Hst. done. }
  assert (status <$> roundCards g2 = foldl statusesAfterToggle sts ixs) as Hst2.
  { subst g2. by rewrite toggleAll_statuses, Hst. }
  split; [done|]. split; [done|]. split; [done|].
  split; [|split; [|split; [done|split]]].
  - subst g1. rewrite (resolveAll_roundScore sts g0 Hserv).
    subst g0. by rewrite startRound_roundScore.
  - rewrite <- Hlen. subst g2. generalize g1. clear.
    induction ixs as [|i ixs IH]; intros g; simpl; [done|].
    rewrite IH. unfold after.
    destruct (toggleCardStatus_frame i g) as (rc & -> & Hrc). by destruct g.
  - apply toggleAll_roundScore.
  - by rewrite confirmScore_roundScore, countCorrect_count_occ, Hst2.
Qed.

(** Three clicks on the one-card deck, two of them correct, then review
    toggles in and out of range: the first entry is turned to skipped,
    and the confirmed score is 1 where the provisional one was 2. *)
Lemma round_record_and_confirmed_score_witness :
  length (roundCards
            (toggleAll [0; 7; -1]%Z
               (resolveAll [correct; skipped; correct]
                  (after startRound demoReady)))) = 3
  ∧ status <$> roundCards
                 (toggleAll [0; 7; -1]%Z
                    (resolveAll [correct; skipped; correct]
                       (after startRound demoReady)))
    = [skipped; skipped; correct]
  ∧ roundScore
      (toggleAll [0; 7; -1]%Z
         (resolveAll [correct; skipped; correct]
            (after startRound demoReady))) = 2
  ∧ roundScore
      (after confirmScore
         (toggleAll [0; 7; -1]%Z
            (resolveAll [correct; skipped; correct]
               (after startRound demoReady)))) = 1.
Proof.
  pose proof (round_record_and_confirmed_score demoReady
                [correct; skipped; correct] [0; 7; -1]%Z) as H.
  cbv zeta in H.
  destruct H as (_ & _ & _ & H4 & H5 & H6 & H7 & H8).
  - split; [vm_compute; lia | vm_compute; discriminate].
  - split; [exact H5|]. split; [exact H6|].
    split; [rewrite H7; exact H4 | exact H8].
Defined.

(** ** Deck selection *)

Lemma filter_ne_nonempty (deck : string) (l : list string) :
  NoDup l → 1 < length l → filter (fun d => d ≠ deck) l ≠ [].
Proof.
  destruct l as [|a [|b l]]; simpl; [lia|lia|]. intros Hnd _.
  apply NoDup_cons in Hnd as [Ha _].
  assert (a ≠ b) as Hab by (intros ->; apply Ha; by left).
  destruct (decide (a = deck)) as [->|Hne].
  - rewrite filter_cons_False by (intros H; by apply H).
    rewrite filter_cons_True by (intros ->; by apply Hab). done.
  - rewrite filter_cons_True by done. done.
Qed.

Lemma toggleDeck_last deck g :
  selectedDecks g = [deck] → toggleDeck deck g = (Normal false, g).
Proof.
  intros H. unfold toggleDeck. js. cbn. rewrite H.
  rewrite bool_decide_eq_true_2 by (by left). cbn. done.
Qed.

Lemma toggleDeck_other deck g :
  selectedDecks g ≠ [deck] →
  ∃ decks, toggleDeck deck g = (Normal true, set_selectedDecks decks g)
    ∧ (deck ∈ decks ↔ deck ∉ selectedDecks g)
    ∧ (∀ d, d ≠ deck → d ∈ decks ↔ d ∈ selectedDecks g)
    ∧ (NoDup (selectedDecks g) → NoDup decks)
    ∧ (NoDup (selectedDecks g) → decks ≠ []).
Proof.
  intros Hne. unfold toggleDeck. js. cbn.
  destruct (decide (deck ∈ selectedDecks g)) as [Hin|Hnin].
  - rewrite bool_decide_eq_true_2 by done.
    assert (1 < length (selectedDecks g)) as Hlen.
    { destruct (selectedDecks g) as [|a [|b l]] eqn:E; simpl; [|exfalso|lia].
      - by apply elem_of_nil in Hin.
      - apply list_elem_of_singleton in Hin as ->. done. }
    rewrite bool_decide_eq_true_2 by done. cbn.
    eexists. split; [reflexivity|]. repeat split.
    + intros [K _]%list_elem_of_filter. done.
    + intros K. by destruct K.
    + intros [_ K]%list_elem_of_filter. done.
    + intros K. apply list_elem_of_filter. done.
    + intros K. by apply NoDup_filter.
    + intros K. by apply filter_ne_nonempty.
  - rewrite bool_decide_eq_false_2 by done. cbn.
    eexists. split; [reflexivity|]. repeat split.
    + done.
    + intros _. apply elem_of_app. right. by left.
    + intros [K|K%list_elem_of_singleton]%elem_of_app; done.
    + intros K. apply elem_of_app. by left.
    + intros K. apply NoDup_app. split; [done|]. split; [|apply NoDup_singleton].
      intros x Hx ->%list_elem_of_singleton. done.
    + intros _ K. by apply app_eq_nil in K as [_ ?].
Qed.

(** Only [toggleDeck] writes [selectedDecks]. *)
Lemma invoke_selectedDecks c g :
  (∀ deck, c ≠ CtoggleDeck deck) →
  selectedDecks (after (invoke c) g) = selectedDecks g.
Proof.
  intros Hc. destruct g, c; try (by destruct (Hc deck));
    unfold invoke, setRoundDuration, setupAndStartGame, startCountdown,
      countdownTick, skipCountdown, startRound, updateTimer, nextCard,
      handleCorrect, handlePass, resolveCard, nextCard, updateCard,
      togglePause, showReviewScreen, toggleCardStatus, confirmScore, endRound,
      showFinalWinner, resetGame, quitGame, renderScreen, setInterval,
      clearInterval, shuffleArray, alert, currentTeam, activeCards;
    js_run; done.
Qed.

Lemma invoke_decksOk c g : decksOk g → decksOk (after (invoke c) g).
Proof.
  intros [Hnd Hne]. unfold decksOk.
  assert ((∃ deck, c = CtoggleDeck deck) ∨ ∀ deck, c ≠ CtoggleDeck deck)
    as [[deck ->]|Hc] by (destruct c; eauto).
  - destruct (decide (selectedDecks g = [deck])) as [Hlast|Hother].
    + unfold after, invoke. js. rewrite (toggleDeck_last deck g Hlast). done.
    + destruct (toggleDeck_other deck g Hother) as (decks & Heq & _ & _ & Hnd' & Hne').
      unfold after, invoke. js. rewrite Heq. destruct g; cbn in *. auto.
  - by rewrite invoke_selectedDecks.
Qed.

Lemma invokeAll_decksOk cs : ∀ g, decksOk g → decksOk (invokeAll cs g).
Proof.
  induction cs as [|c cs IH]; intros g Hg; simpl; [done|].
  apply IH, invoke_decksOk, Hg.
Qed.

(** C4. [toggleDeck] on the only selected deck returns [false] and
    changes nothing; in every other case it returns [true] and flips the
    membership of that deck alone; and whatever methods are called on a
    constructed game manager, in whatever order, at least one deck stays
    selected. *)
Theorem selected_decks_never_empty :
  (∀ g deck, selectedDecks g = [deck] → toggleDeck deck g = (Normal false, g))
  ∧ (∀ g deck, selectedDecks g ≠ [deck] →
       let g' := after (toggleDeck deck) g in
       completion (toggleDeck deck) g = Normal true
       ∧ (deck ∈ selectedDecks g' ↔ deck ∉ selectedDecks g)
       ∧ (∀ d, d ≠ deck → d ∈ selectedDecks g' ↔ d ∈ selectedDecks g))
  ∧ (∀ data rnd cs, 1 ≤ length (selectedDecks (invokeAll cs (newGame data rnd)))).
Proof.
  split; [exact (fun g deck => toggleDeck_last deck g)|]. split.
  - intros g deck Hne g'. subst g'. unfold after, completion.
    destruct (toggleDeck_other deck g Hne) as (decks & -> & H1 & H2 & _).
    by destruct g.
  - intros data rnd cs.
    destruct (invokeAll_decksOk cs (newGame data rnd)) as [_ Hne].
    + split; [apply NoDup_singleton|done].
    + destruct (selectedDecks _); [done|simpl; lia].
Qed.

(** On the fresh game only naija is selected: clicking it is refused,
    clicking global selects it. *)
Lemma selected_decks_never_empty_witness :
  toggleDeck "naija" demoGame = (Normal false, demoGame)
  ∧ completion (toggleDeck "global") demoGame = Normal true
  ∧ 1 ≤ length (selectedDecks
                  (invokeAll [CtoggleDeck "naija"; CquitGame true] demoGame)).
Proof.
  destruct selected_decks_never_empty as (H1 & H2 & H3).
  split; [apply H1; reflexivity|]. split.
  - apply (H2 demoGame "global"). vm_compute. discriminate.
  - apply (H3 demoData (fun k => k)).
Defined.

(** ** Review toggles *)

Lemma flipStatus_status e :
  status (flipStatus e) = match status e with correct => skipped | skipped => correct end.
Proof. unfold flipStatus. cbn. by destruct (status e). Qed.

(** C6, as the claim has it: outside REVIEW a toggle is not valid, so
    it would leave the record alone. It does not: during PLAYING, after
    one correct click, [toggleCardStatus(0)] turns the entry to skipped. *)
Lemma toggleCardStatus_acts_while_playing :
  state demoOneCorrect = PLAYING
  ∧ roundCards demoOneCorrect = [MkEntry "Lagos" correct]
  ∧ roundCards (after (toggleCardStatus 0) demoOneCorrect)
    = [MkEntry "Lagos" skipped]
  ∧ ¬ (∀ g index, state g ≠ REVIEW →
         roundCards (after (toggleCardStatus index) g) = roundCards g).
Proof.
  split; [reflexivity|]. split; [reflexivity|]. split; [reflexivity|].
  intros H. specialize (H demoOneCorrect 0%Z).
  vm_compute in H. by specialize (H ltac:(discriminate)).
Qed.

(** C6, amended. In whatever phase it is called, [toggleCardStatus]
    returns normally; for an index inside the round record it replaces
    that entry by the same word with the status flipped between correct
    and skipped and changes nothing else; for an index below zero or past
    the end it changes nothing. *)
Theorem toggleCardStatus_flips_or_ignores (g : GameManager) (index : Z) :
  completion (toggleCardStatus index) g = Normal tt
  ∧ (∀ item, (0 ≤ index)%Z → roundCards g !! Z.to_nat index = Some item →
       after (toggleCardStatus index) g =
         set_roundCards (<[Z.to_nat index := flipStatus item]> (roundCards g)) g
       ∧ word (flipStatus item) = word item
       ∧ status (flipStatus item) =
           match status item with correct => skipped | skipped => correct end)
  ∧ ((index < 0)%Z ∨ (Z.of_nat (length (roundCards g)) ≤ index)%Z →
       after (toggleCardStatus index) g = g).
Proof.
  unfold toggleCardStatus, entryAt. js. cbn. split; [|split].
  - by destruct (if bool_decide _ then _ else _).
  - intros item Hpos Hitem. rewrite bool_decide_eq_true_2 by done.
    rewrite Hitem. cbn. split; [done|]. split; [done|]. apply flipStatus_status.
  - intros [Hneg|Hbig].
    + rewrite bool_decide_eq_false_2 by lia. done.
    + case_bool_decide; [|done].
      rewrite lookup_ge_None_2 by lia. done.
Qed.

Lemma toggleCardStatus_flips_or_ignores_witness :
  status <$> roundCards (after (toggleCardStatus 1) demoTwoCards)
  = [correct; correct]
  ∧ after (toggleCardStatus 2) demoTwoCards = demoTwoCards
  ∧ after (toggleCardStatus (-1)) demoTwoCards = demoTwoCards.
Proof.
  set (g := demoTwoCards).
  destruct (toggleCardStatus_flips_or_ignores g 1) as (_ & H1 & _).
  destruct (H1 (MkEntry "Lagos" skipped)) as (-> & _); [lia|reflexivity|].
  split; [reflexivity|]. split.
  - apply (toggleCardStatus_flips_or_ignores g 2). right. vm_compute. discriminate.
  - apply (toggleCardStatus_flips_or_ignores g (-1)). left. lia.
Defined.

(** ** Team setup *)

Lemma pushTeams_seq n : ∀ i ts, pushTeams n i ts = ts ++ (makeTeam <$> seq i n).
Proof.
  induction n as [|n IH]; intros i ts; simpl.
  - by rewrite app_nil_r.
  - rewrite IH, <- app_assoc. done.
Qed.

Lemma pushTeams_lookup n i :
  i < n → pushTeams n 0 [] !! i = Some (makeTeam i).
Proof.
  intros Hi. rewrite pushTeams_seq. simpl.
  rewrite list_lookup_fmap, lookup_seq_lt by done. done.
Qed.

Lemma pushTeams_length n : length (pushTeams n 0 []) = n.
Proof. rewrite pushTeams_seq. simpl. by rewrite length_fmap, length_seq. Qed.

Lemma setup_no_cards n g :
  activeCards g = [] →
  setupAndStartGame n g
  = (Normal tt, set_alerts (alerts g ++ [NO_DECK_MESSAGE]) (seatTeams n g)).
Proof.
  intros H. destruct g. unfold setupAndStartGame, alert, activeCards, seatTeams in *.
  js. cbn in *. rewrite H. reflexivity.
Qed.

Lemma setup_cards n g :
  activeCards g ≠ [] →
  ∃ pool, pool ≡ₚ activeCards g ∧
    setupAndStartGame n g
    = startCountdown
        (set_currentCardIndex 0
           (set_shuffledCards pool
              (set_draws (draws g + (length (activeCards g) - 1)) (seatTeams n g)))).
Proof.
  intros H. destruct g. unfold setupAndStartGame, shuffleArray, activeCards, seatTeams in *.
  js. cbn in *.
  rewrite bool_decide_eq_false_2.
  - eexists. split; [apply shuffleLoop_perm|]. reflexivity.
  - intros Hlen. by apply length_zero_iff_nil in Hlen.
Qed.

Lemma startCountdown_teams g :
  teams (after startCountdown g) = teams g
  ∧ numberOfTeams (after startCountdown g) = numberOfTeams g
  ∧ currentTeamIndex (after startCountdown g) = currentTeamIndex g
  ∧ totalRoundsCompleted (after startCountdown g) = totalRoundsCompleted g.
Proof.
  destruct g. unfold startCountdown, renderScreen, setInterval, clearInterval,
    currentTeam. js_run; done.
Qed.

Lemma setup_seats n g :
  let g' := after (setupAndStartGame n) g in
  numberOfTeams g' = n ∧ teams g' = pushTeams n 0 []
  ∧ currentTeamIndex g' = Some 0 ∧ totalRoundsCompleted g' = 0.
Proof.
  cbn.
  destruct (decide (activeCards g = [])) as [He|Hne].
  - unfold after. rewrite (setup_no_cards n g He). by destruct g.
  - destruct (setup_cards n g Hne) as (pool & _ & Heq).
    unfold after at 1 2 3 4. rewrite Heq.
    match goal with |- context [startCountdown ?x] =>
      destruct (startCountdown_teams x) as (H1 & H2 & H3 & H4) end.
    unfold after in H1, H2, H3, H4. rewrite H1, H2, H3, H4.
    by destruct g.
Qed.

(** C7, as the claim has it: with more teams than colours the palette
    would be reused from its start. With five teams the fifth gets no
    colour at all, where the cyclic rule gives it the first. *)
Lemma fifth_team_has_no_color :
  color <$> teams (after (setupAndStartGame 5) demoGame) !! 4 = Some None
  ∧ TEAM_COLORS !! (4 mod length TEAM_COLORS) = Some "var(--team1-color)".
Proof. split; reflexivity. Qed.

(** C7, amended. For every team count [n], zero included,
    [setupAndStartGame n] leaves [n] teams, the turn pointer at 0 and no
    round completed; team [i] is named Team [i+1] in decimal, has
    score 0 and the colour [TEAM_COLORS[i]]: the palette entry for the
    first four teams (where it is also the cyclic one), no colour from
    the fifth on. *)
Theorem setup_builds_teams (g : GameManager) (n : nat) :
  let g' := after (setupAndStartGame n) g in
  numberOfTeams g' = n
  ∧ length (teams g') = n
  ∧ currentTeamIndex g' = Some 0
  ∧ totalRoundsCompleted g' = 0
  ∧ ∀ i, i < n →
      teams g' !! i = Some (MkTeam ("Team " +:+ pretty (i + 1)) 0 (TEAM_COLORS !! i))
      ∧ (i < length TEAM_COLORS →
           TEAM_COLORS !! i = TEAM_COLORS !! (i mod length TEAM_COLORS)
           ∧ is_Some (TEAM_COLORS !! i))
      ∧ (length TEAM_COLORS ≤ i → TEAM_COLORS !! i = None).
Proof.
  intros g'. destruct (setup_seats n g) as (HT & Hteams & Hidx & Htot).
  fold g' in HT, Hteams, Hidx, Htot.
  rewrite HT, Hteams, Hidx, Htot, pushTeams_length.
  split; [done|]. split; [done|]. split; [done|]. split; [done|].
  intros i Hi. rewrite pushTeams_lookup by done.
  split; [done|]. split.
  - intros Hlt. split; [by rewrite Nat.mod_small|by apply lookup_lt_is_Some_2].
  - intros. by apply lookup_ge_None_2.
Qed.

(** Three teams, of which the third; and no team at all. *)
Lemma setup_builds_teams_witness :
  teams (after (setupAndStartGame 3) demoGame) !! 2
  = Some (MkTeam "Team 3" 0 (Some "var(--team3-color)"))
  ∧ length (teams (after (setupAndStartGame 0) demoGame)) = 0
  ∧ currentTeamIndex (after (setupAndStartGame 0) demoGame) = Some 0.
Proof.
  split.
  - destruct (setup_builds_teams demoGame 3) as (_ & _ & _ & _ & H).
    destruct (H 2) as [H2 _]; [lia|exact H2].
  - destruct (setup_builds_teams demoGame 0) as (_ & H2 & H3 & _).
    split; [exact H2|exact H3].
Defined.

(** ** Pause and resume *)

Lemma updateTimer_paused g : isPaused g = true → updateTimer g = (Normal tt, g).
Proof. intros H. unfold updateTimer. js. cbn. by rewrite H. Qed.

Lemma updateTimer_running g :
  isPaused g = false →
  timeLeft (after updateTimer g) = (timeLeft g - 1)%Z
  ∧ (state (after updateTimer g) = REVIEW ↔
       (timeLeft g - 1 ≤ 0)%Z ∨ state g = REVIEW).
Proof.
  intros H. destruct g. unfold updateTimer, showReviewScreen, renderScreen,
    clearInterval. cbn in H. subst.
  js_run; (split; [done|]); split; intros; try done; try (left; lia).
  - by right.
  - destruct H; [lia|done].
Qed.

Lemma ticks_paused n g :
  isPaused g = true → Nat.iter n (after updateTimer) g = g.
Proof.
  intros H. induction n as [|n IH]; simpl; [done|].
  rewrite IH. unfold after. by rewrite updateTimer_paused.
Qed.

Lemma togglePause_elsewhere g : state g ≠ PLAYING → togglePause g = (Normal tt, g).
Proof.
  intros H. unfold togglePause. js. cbn. by rewrite bool_decide_eq_true_2.
Qed.

Lemma togglePause_pauses g :
  state g = PLAYING → isPaused g = false →
  togglePause g =
    (Normal tt,
     set_intervals (cancel (timerInterval g) (intervals g)) (set_isPaused true g)).
Proof.
  intros Hs Hp. destruct g. unfold togglePause, clearInterval. cbn in *. subst.
  js_run; done.
Qed.

Lemma togglePause_resumes g :
  state g = PLAYING → isPaused g = true →
  togglePause g =
    (Normal tt,
     set_timerInterval (Some (nextHandle g))
       (set_nextHandle (S (nextHandle g))
          (set_intervals (<[nextHandle g := TimerTask]> (intervals g))
             (set_isPaused false g)))).
Proof.
  intros Hs Hp. destruct g. unfold togglePause, setInterval. cbn in *. subst.
  js_run; done.
Qed.

(** C8. While [isPaused] holds, any number of timer ticks leaves the
    whole object as it is: [timeLeft] stays and the phase cannot become
    REVIEW. Pausing during PLAYING cancels the round interval and sets
    the flag; resuming clears the flag and registers a new interval, with
    [timeLeft] as it was at the pause, and the next tick counts down from
    there. Outside PLAYING [togglePause] does nothing, and inside it
    writes the flag and the interval bookkeeping only. *)
Theorem pause_freezes_timer (g : GameManager) (n : nat) :
  (isPaused g = true → Nat.iter n (after updateTimer) g = g)
  ∧ (state g = PLAYING → isPaused g = false →
       let p := after togglePause g in
       isPaused p = true ∧ timeLeft p = timeLeft g ∧ state p = PLAYING
       ∧ (∀ h, timerInterval g = Some h → intervals p !! h = None)
       ∧ timeLeft (Nat.iter n (after updateTimer) p) = timeLeft g
       ∧ state (Nat.iter n (after updateTimer) p) = PLAYING)
  ∧ (state g = PLAYING → isPaused g = true →
       let r := after togglePause g in
       isPaused r = false ∧ timeLeft r = timeLeft g ∧ state r = PLAYING
       ∧ (∃ h, timerInterval r = Some h ∧ intervals r !! h = Some TimerTask)
       ∧ timeLeft (after updateTimer r) = (timeLeft g - 1)%Z)
  ∧ (state g ≠ PLAYING → togglePause g = (Normal tt, g))
  ∧ (∃ flag handle live next,
       after togglePause g =
         set_timerInterval handle
           (set_nextHandle next (set_intervals live (set_isPaused flag g)))).
Proof.
  split; [apply ticks_paused|]. split; [|split; [|split]].
  - intros Hs Hp p.
    assert (p = set_intervals (cancel (timerInterval g) (intervals g))
                  (set_isPaused true g)) as Hp'.
    { subst p. unfold after. by rewrite (togglePause_pauses g Hs Hp). }
    assert (isPaused p = true) as Hpaused by (rewrite Hp'; by destruct g).
    rewrite ticks_paused by done. rewrite Hp'.
    destruct g; cbn in *. repeat split; try done.
    intros h ->. apply lookup_delete_eq.
  - intros Hs Hp r.
    assert (r = set_timerInterval (Some (nextHandle g))
                  (set_nextHandle (S (nextHandle g))
                     (set_intervals (<[nextHandle g := TimerTask]> (intervals g))
                        (set_isPaused false g)))) as Hr.
    { subst r. unfold after. by rewrite (togglePause_resumes g Hs Hp). }
    assert (isPaused r = false) as Hrun by (rewrite Hr; by destruct g).
    destruct (updateTimer_running r Hrun) as [-> _]. rewrite Hr.
    split; [by destruct g|]. split; [by destruct g|]. split; [by destruct g|].
    split; [|by destruct g].
    exists (nextHandle g). destruct g; cbn. split; [done|]. apply lookup_insert_eq.
  - apply togglePause_elsewhere.
  - destruct (decide (state g = PLAYING)) as [Hs|Hs].
    + destruct (isPaused g) eqn:Hp; unfold after.
      * rewrite (togglePause_resumes g Hs Hp). eauto.
      * rewrite (togglePause_pauses g Hs Hp).
        eexists true, (timerInterval g), _, (nextHandle g).
        destruct g; reflexivity.
    + unfold after. rewrite (togglePause_elsewhere g Hs).
      exists (isPaused g), (timerInterval g), (intervals g), (nextHandle g).
      by destruct g.
Qed.

Lemma pause_freezes_timer_witness :
  Nat.iter 60 (after updateTimer) demoPaused = demoPaused
  ∧ timeLeft (after updateTimer (after togglePause demoPaused)) = 29%Z.
Proof.
  destruct (pause_freezes_timer demoPaused 60) as (H1 & _ & H3 & _).
  split; [apply H1; reflexivity|].
  destruct H3 as (_ & _ & _ & _ & H); [reflexivity|reflexivity|exact H].
Defined.

(** ** Setup without cards *)

Lemma setup_accepted n g :
  0 < n → activeCards g ≠ [] →
  completion (setupAndStartGame n) g = Normal tt
  ∧ state (after (setupAndStartGame n) g) = GET_READY.
Proof.
  intros Hn Hne. destruct (setup_cards n g Hne) as (pool & _ & Heq).
  unfold completion, after. rewrite Heq.
  match goal with |- context [startCountdown ?x] => set (h := x) end.
  assert (currentTeamIndex h = Some 0) as Hi by (subst h; by destruct g).
  assert (teams h !! 0 = Some (makeTeam 0)) as Ht.
  { subst h. destruct g; cbn. by apply pushTeams_lookup. }
  clearbody h. destruct h. unfold startCountdown, renderScreen, setInterval,
    clearInterval, currentTeam. cbn in *. subst.
  split; js_run; first [done|congruence].
Qed.

(** C9, as the claim has it: the refusal would reach the caller of
    [setupAndStartGame] as an error. The call that is refused for want
    of cards comes back as the call that is accepted does: it returns,
    without a value, and nothing is thrown. *)
Lemma setup_refusal_returns_like_success :
  activeCards demoNoCards = []
  ∧ completion (setupAndStartGame 2) demoNoCards = Normal tt
  ∧ activeCards (fire PlayNow demoGame) ≠ []
  ∧ completion (setupAndStartGame 2) (fire PlayNow demoGame) = Normal tt
  ∧ state (after (setupAndStartGame 2) (fire PlayNow demoGame)) = GET_READY.
Proof.
  split; [reflexivity|]. split; [reflexivity|].
  split; [vm_compute; discriminate|]. split; reflexivity.
Qed.

(** C9, amended. When the selected decks yield no card (each selected
    deck is missing from the card data or empty), [setupAndStartGame]
    shows the alert before it returns; to its caller it returns as
    every accepted setup with a team does, without a value and without
    an exception. The phase and the active screen stay as they were, no
    interval is registered and the countdown is not touched. *)
Theorem setup_without_cards_blocks (g : GameManager) (teamCount : nat) :
  (∀ deck, deck ∈ selectedDecks g →
     cardData g !! deck = None ∨ cardData g !! deck = Some []) →
  let g' := after (setupAndStartGame teamCount) g in
  completion (setupAndStartGame teamCount) g = Normal tt
  ∧ (∀ h n, 0 < n → activeCards h ≠ [] →
       completion (setupAndStartGame n) h
       = completion (setupAndStartGame teamCount) g)
  ∧ alerts g' = alerts g ++ [NO_DECK_MESSAGE]
  ∧ state g' = state g
  ∧ screen g' = screen g
  ∧ intervals g' = intervals g
  ∧ nextHandle g' = nextHandle g
  ∧ countdownInterval g' = countdownInterval g
  ∧ countdownTime g' = countdownTime g
  ∧ shuffledCards g' = shuffledCards g.
Proof.
  intros Hdecks g'. subst g'.
  assert (activeCards g = []) as He by (by apply gatherActive_nil).
  assert (completion (setupAndStartGame teamCount) g = Normal tt) as Hc.
  { unfold completion. by rewrite (setup_no_cards teamCount g He). }
  split; [done|]. split.
  { intros h n Hn Hne. rewrite Hc. by destruct (setup_accepted n h Hn Hne). }
  unfold after. rewrite (setup_no_cards teamCount g He). by destruct g.
Qed.

Lemma setup_without_cards_blocks_witness :
  completion (setupAndStartGame 2) demoNoCards = Normal tt
  ∧ alerts (after (setupAndStartGame 2) demoNoCards) = [NO_DECK_MESSAGE]
  ∧ state (after (setupAndStartGame 2) demoNoCards) = TEAM_SELECTION.
Proof.
  destruct (setup_without_cards_blocks demoNoCards 2) as (H0 & _ & H1 & H2 & _).
  - intros deck Hd. vm_compute in Hd.
    apply list_elem_of_singleton in Hd as ->. by left.
  - split; [exact H0|]. split; [exact H1|exact H2].
Defined.

(** C10. When the selected decks yield no card, [setupAndStartGame] has
    by then replaced the team list by fresh teams with score 0, and set
    [numberOfTeams], the turn pointer and the count of completed rounds;
    the alert comes after. The session is not left as it was: in
    [demoSecondSetup] team 1 had a point and it was team 2's turn, and
    after the refused setup with three teams neither is so. *)
Theorem setup_not_atomic_on_empty_deck :
  (∀ g teamCount, activeCards g = [] →
     let g' := after (setupAndStartGame teamCount) g in
     numberOfTeams g' = teamCount
     ∧ teams g' = makeTeam <$> seq 0 teamCount
     ∧ (∀ t, t ∈ teams g' → score t = 0)
     ∧ currentTeamIndex g' = Some 0
     ∧ totalRoundsCompleted g' = 0
     ∧ alerts g' = alerts g ++ [NO_DECK_MESSAGE]
     ∧ state g' = state g)
  ∧ (activeCards demoSecondSetup = []
     ∧ score <$> teams demoSecondSetup = [1; 0]
     ∧ currentTeamIndex demoSecondSetup = Some 1
     ∧ score <$> teams (after (setupAndStartGame 3) demoSecondSetup) = [0; 0; 0]
     ∧ currentTeamIndex (after (setupAndStartGame 3) demoSecondSetup) = Some 0
     ∧ teams (after (setupAndStartGame 3) demoSecondSetup) ≠ teams demoSecondSetup).
Proof.
  split.
  - intros g n He g'. subst g'. unfold after.
    rewrite (setup_no_cards n g He).
    replace (teams (snd (Normal (), set_alerts (alerts g ++ [NO_DECK_MESSAGE])
                           (seatTeams n g)))) with (pushTeams n 0 [])
      by (by destruct g).
    rewrite pushTeams_seq. simpl.
    split; [by destruct g|]. split; [done|]. split.
    + intros t (i & -> & _)%list_elem_of_fmap. done.
    + by destruct g.
  - repeat split; try reflexivity. vm_compute. discriminate.
Qed.

Lemma setup_not_atomic_on_empty_deck_witness :
  teams (after (setupAndStartGame 3) demoSecondSetup) = makeTeam <$> seq 0 3.
Proof.
  destruct setup_not_atomic_on_empty_deck as [H _].
  refine (proj1 (proj2 (H demoSecondSetup 3 _))). reflexivity.
Defined.

(** ** What each method writes *)

Lemma startCountdown_effect g i t :
  currentTeamIndex g = Some i → teams g !! i = Some t →
  startCountdown g =
    (Normal tt,
     set_countdownInterval (Some (nextHandle g))
       (set_nextHandle (S (nextHandle g))
          (set_intervals
             (<[nextHandle g := CountdownTask]>
                (cancel (countdownInterval g) (intervals g)))
             (set_screen GET_READY
                (set_countdownTime COUNTDOWN_DURATION (set_state GET_READY g)))))).
Proof.
  intros Hi Ht. destruct g. unfold startCountdown, renderScreen, setInterval,
    clearInterval, currentTeam. cbn in *. subst. js_run; first [done|congruence].
Qed.

Lemma startCountdown_throws g :
  currentTeam g = None →
  startCountdown g =
    (Thrown, set_countdownTime COUNTDOWN_DURATION (set_state GET_READY g)).
Proof.
  intros H. destruct g. unfold startCountdown, currentTeam, renderScreen,
    setInterval, clearInterval in *. js_run; first [done|congruence].
Qed.

Lemma startRound_effect g i t c :
  currentTeamIndex g = Some i → teams g !! i = Some t →
  shuffledCards g !! currentCardIndex g = Some c →
  startRound g =
    (Normal tt,
     set_timerInterval (Some (nextHandle g))
       (set_nextHandle (S (nextHandle g))
          (set_intervals
             (<[nextHandle g := TimerTask]> (cancel (timerInterval g) (intervals g)))
             (set_screen PLAYING
                (set_timeLeft (roundDuration g)
                   (set_roundScore 0
                      (set_roundCards []
                         (set_isPaused false (set_state PLAYING g))))))))).
Proof.
  intros Hi Ht Hc. destruct g. unfold startRound, updateCard, renderScreen,
    setInterval, clearInterval, currentTeam. cbn in *. subst.
  js_run; first [done|congruence].
Qed.

Lemma endRound_effect g i t :
  currentTeamIndex g = Some i → teams g !! i = Some t →
  numberOfTeams g ≠ 0 → length (teams g) = numberOfTeams g →
  let g1 :=
    set_totalRoundsCompleted (totalRoundsCompleted g + 1)
      (set_currentTeamIndex (Some ((i + 1) mod numberOfTeams g))
         (set_teams (<[i := addScore (roundScore g) t]> (teams g))
            (set_intervals (cancel (timerInterval g) (intervals g)) g))) in
  endRound g =
    (Normal tt,
     if bool_decide (numberOfTeams g * MAX_ROUNDS_PER_TEAM
                     ≤ totalRoundsCompleted g + 1)
     then set_screen GAME_OVER (set_state GAME_OVER g1)
     else set_screen ROUND_OVER (set_state ROUND_OVER g1)).
Proof.
  intros Hi Ht HT Hlen. destruct g. unfold endRound, showFinalWinner, renderScreen,
    clearInterval, currentTeam, nextIndex. cbn in *. subst.
  js_run; try first [done|congruence].
  match goal with H : <[_:=_]> _ !! _ = None |- _ =>
    apply lookup_ge_None in H; rewrite length_insert in H end.
  pose proof (Nat.mod_upper_bound (i + 1) (length teams0) HT). lia.
Qed.

Lemma confirmScore_effect g :
  confirmScore g = endRound (set_roundScore (countCorrect (roundCards g)) g).
Proof. by destruct g. Qed.

Lemma skipCountdown_effect g :
  skipCountdown g =
    startRound (set_intervals (cancel (countdownInterval g) (intervals g)) g).
Proof. by destruct g. Qed.

Lemma countdownTick_effect g :
  countdownTick g =
    if bool_decide (countdownTime g - 1 ≤ 0)%Z
    then startRound
           (set_intervals (cancel (countdownInterval g) (intervals g))
              (set_countdownTime (countdownTime g - 1)%Z g))
    else (Normal tt, set_countdownTime (countdownTime g - 1)%Z g).
Proof.
  destruct g. unfold countdownTick, clearInterval. js. cbn.
  by case_bool_decide.
Qed.

Lemma updateTimer_effect g :
  isPaused g = false →
  updateTimer g =
    (Normal tt,
     if bool_decide (timeLeft g - 1 ≤ 0)%Z
     then set_screen REVIEW
            (set_intervals (cancel (timerInterval g) (intervals g))
               (set_state REVIEW (set_timeLeft (timeLeft g - 1)%Z g)))
     else set_timeLeft (timeLeft g - 1)%Z g).
Proof.
  intros H. destruct g. unfold updateTimer, showReviewScreen, renderScreen,
    clearInterval. cbn in *. subst. js. cbn. by case_bool_decide.
Qed.

Lemma resolveCard_effect st g :
  serving g →
  ∃ pool i d rc rs,
    resolveCard st g =
      (Normal tt,
       set_currentCardIndex i
         (set_shuffledCards pool
            (set_draws d (set_roundScore rs (set_roundCards rc g)))))
    ∧ i < length pool.
Proof.
  intros [Hidx Hne].
  destruct (lookup_lt_is_Some_2 _ _ Hidx) as [card Hcard].
  set (rc := roundCards g ++ [MkEntry (targetWord card) st]).
  set (rs := match st with correct => roundScore g + 1 | skipped => roundScore g end).
  assert (resolveCard st g = nextCard (set_roundScore rs (set_roundCards rc g))) as ->.
  { subst rc rs. destruct st; unfold resolveCard, handleCorrect, handlePass;
      js; cbn; rewrite Hcard; destruct g; reflexivity. }
  destruct (nextCard_frame (set_roundScore rs (set_roundCards rc g)))
    as (pool & i & d & -> & Hi); [by destruct g|].
  exists pool, i, d, rc, rs. done.
Qed.

Lemma resetGame_effect g :
  resetGame g =
    (Normal tt,
     set_screen TEAM_SELECTION
       (set_totalRoundsCompleted 0
          (set_state TEAM_SELECTION
             (set_intervals
                (cancel (countdownInterval g) (cancel (timerInterval g) (intervals g)))
                g)))).
Proof. by destruct g. Qed.

Lemma quitGame_effect g :
  quitGame true g =
    (Normal tt,
     set_screen WELCOME
       (set_roundScore 0
          (set_currentCardIndex 0
             (set_totalRoundsCompleted 0
                (set_state WELCOME
                   (set_isPaused false
                      (set_intervals
                         (cancel (countdownInterval g)
                            (cancel (timerInterval g) (intervals g)))
                         g))))))).
Proof. by destruct g. Qed.

Lemma toggleDeck_effect deck g :
  ∃ decks, after (toggleDeck deck) g = set_selectedDecks decks g.
Proof.
  destruct (decide (selectedDecks g = [deck])) as [H|H]; unfold after.
  - rewrite (toggleDeck_last deck g H). exists (selectedDecks g). by destruct g.
  - destruct (toggleDeck_other deck g H) as (decks & -> & _). by exists decks.
Qed.

(** ** Sessions: the invariant holds all along *)

Lemma inv_new data rnd : inv (newGame data rnd).
Proof. split; cbn; done. Qed.

Lemma lookup_cancel o (m : gmap nat IntervalTask) h x :
  cancel o m !! h = Some x → m !! h = Some x ∧ o ≠ Some h.
Proof.
  destruct o as [i|]; unfold cancel; [|done].
  intros [Hne Hm]%lookup_delete_Some. split; [done|congruence].
Qed.

(** During play the current team and the card on display exist. *)
Lemma inv_current g :
  inv g → inPlay (screen g) = true →
  ∃ i t c, currentTeamIndex g = Some i ∧ teams g !! i = Some t
           ∧ shuffledCards g !! currentCardIndex g = Some c
           ∧ numberOfTeams g ≠ 0 ∧ state g = screen g.
Proof.
  intros [I1 I2 _ _ I5 _] Hp. destruct (I5 Hp) as (Hs & HT & [Hc _] & _).
  destruct (I2 HT) as (i & Hi & Hlt).
  destruct (lookup_lt_is_Some_2 (teams g) i) as [t Ht]; [lia|].
  destruct (lookup_lt_is_Some_2 _ _ Hc) as [c Hc'].
  eauto 10.
Qed.

Ltac lookups :=
  repeat match goal with
  | H : <[_ := _]> _ !! _ = Some _ |- _ =>
      apply lookup_insert_Some in H as [[<- ?]|[? H]]
  | H : cancel _ _ !! _ = Some _ |- _ => apply lookup_cancel in H as [H ?]
  | H : ∀ h, ?m !! h = Some ?x → _, K : ?m !! ?i = Some ?x |- _ =>
      specialize (H i K)
  end.

#[local] Set Warnings "-clear-no-such-hyp".

Ltac inv_open Hinv g :=
  destruct Hinv as [I1 I2 I3 I4 I5 I6];
  destruct g; unfold serving, activeCards, MAX_ROUNDS_PER_TEAM in *;
  cbn in *; subst.

Ltac inv_finish :=
  split; cbn in *;
  [ try done
  | try done
  | intros h Hh; lookups; try naive_solver
  | intros h Hh; lookups; try naive_solver
  | intros Hplay; unfold serving, activeCards, MAX_ROUNDS_PER_TEAM in *;
    cbn in *; try naive_solver
  | try done ].

Lemma inv_PlayNow g : inv g → screen g = WELCOME → inv (fire PlayNow g).
Proof.
  intros Hinv Hs. inv_open Hinv g. inv_finish.
Qed.

Lemma inv_TimerOption d g : inv g → inv (fire (TimerOption d) g).
Proof. intros Hinv. inv_open Hinv g. inv_finish. Qed.

Lemma inv_ReviewToggle i g : inv g → inv (fire (ReviewToggle i) g).
Proof.
  intros Hinv. unfold fire, after, handler.
  destruct (toggleCardStatus_frame i g) as (rc & -> & _).
  inv_open Hinv g. inv_finish.
Qed.

Lemma inv_DeckOption deck g :
  inv g → screen g = TEAM_SELECTION → inv (fire (DeckOption deck) g).
Proof.
  intros Hinv Hs.
  destruct (toggleDeck_effect deck g) as [decks Hd].
  assert (fire (DeckOption deck) g = set_selectedDecks decks g) as ->.
  { rewrite <- Hd. unfold fire, after, handler. js.
    by destruct (toggleDeck deck g) as [[] ?]. }
  inv_open Hinv g. inv_finish.
Qed.

Lemma inv_NewGame g : inv g → inv (fire NewGame g).
Proof.
  intros Hinv. unfold fire, after, handler. rewrite resetGame_effect.
  inv_open Hinv g. inv_finish.
Qed.

Lemma inv_Quit b g : inv g → inv (fire (Quit b) g).
Proof.
  intros Hinv. destruct b; [|done].
  unfold fire, after, handler. rewrite quitGame_effect.
  inv_open Hinv g. inv_finish.
Qed.

Lemma inv_Pause g : inv g → screen g = PLAYING → inv (fire Pause g).
Proof.
  intros Hinv Hs.
  destruct (inv_current g Hinv) as (_ & _ & _ & _ & _ & _ & _ & Hst);
    [by rewrite Hs|]. rewrite Hs in Hst.
  unfold fire, after, handler. destruct (isPaused g) eqn:Hp.
  - rewrite (togglePause_resumes g Hst Hp). inv_open Hinv g. inv_finish.
  - rewrite (togglePause_pauses g Hst Hp). inv_open Hinv g. inv_finish.
Qed.

Lemma inv_startRound g live :
  inv g → screen g = GET_READY →
  (∀ h x, live !! h = Some x → intervals g !! h = Some x
          ∧ countdownInterval g ≠ Some h) →
  inv (after startRound (set_intervals live g)).
Proof.
  intros Hinv Hs Hlive.
  destruct (inv_current g Hinv) as (i & t & c & Hi & Ht & Hc & HT & Hst);
    [by rewrite Hs|].
  unfold after. erewrite startRound_effect; [|by destruct g ..].
  inv_open Hinv g. inv_finish.
Qed.

Lemma inv_SkipCountdown g :
  inv g → screen g = GET_READY → inv (fire SkipCountdown g).
Proof.
  intros Hinv Hs. unfold fire, handler, after. rewrite skipCountdown_effect.
  apply (inv_startRound g _ Hinv Hs).
  intros h x Hh. by apply lookup_cancel in Hh.
Qed.

Lemma inv_set_countdownTime v g : inv g → inv (set_countdownTime v g).
Proof. intros Hinv. inv_open Hinv g. inv_finish. Qed.

Lemma inv_countdownTick g :
  inv g → screen g = GET_READY → inv (after countdownTick g).
Proof.
  intros Hinv Hs. unfold after. rewrite countdownTick_effect.
  case_bool_decide; [|by apply inv_set_countdownTime].
  set (g' := set_countdownTime (countdownTime g - 1)%Z g).
  replace (set_intervals _ g')
    with (set_intervals (cancel (countdownInterval g') (intervals g')) g')
    by (by destruct g).
  apply (inv_startRound g' _ (inv_set_countdownTime _ g Hinv)); [by destruct g|].
  intros h x Hh. by apply lookup_cancel in Hh.
Qed.

Lemma inv_updateTimer g :
  inv g → screen g = PLAYING → isPaused g = false → inv (after updateTimer g).
Proof.
  intros Hinv Hs Hp. unfold after. rewrite (updateTimer_effect g Hp).
  case_bool_decide; inv_open Hinv g; inv_finish.
Qed.

Lemma inv_IntervalFires h g : inv g → inv (fire (IntervalFires h) g).
Proof.
  intros Hinv. unfold fire, handler.
  assert (after (g0 ← read id;
                 match intervals g0 !! h with
                 | Some TimerTask => updateTimer
                 | Some CountdownTask => countdownTick
                 | None => mret ()
                 end) g
          = match intervals g !! h with
            | Some TimerTask => after updateTimer g
            | Some CountdownTask => after countdownTick g
            | None => g
            end) as ->.
  { unfold after. js. cbn. by destruct (intervals g !! h) as [[]|]. }
  destruct (intervals g !! h) as [[]|] eqn:Hh; [| |done].
  - destruct (inv_timer g Hinv h Hh) as (? & ? & ?). by apply inv_updateTimer.
  - destruct (inv_countdown g Hinv h Hh) as (? & ?). by apply inv_countdownTick.
Qed.

Lemma inv_resolve st g :
  inv g → screen g = PLAYING → inv (after (resolveCard st) g).
Proof.
  intros Hinv Hs.
  destruct (inv_play g Hinv) as (_ & _ & Hserv & _); [by rewrite Hs|].
  destruct (resolveCard_effect st g Hserv) as (pool & i & d & rc & rs & Heq & Hi).
  unfold after. rewrite Heq.
  inv_open Hinv g. inv_finish.
Qed.

Lemma inv_NextRound g : inv g → screen g = ROUND_OVER → inv (fire NextRound g).
Proof.
  intros Hinv Hs.
  destruct (inv_current g Hinv) as (i & t & c & Hi & Ht & Hc & HT & Hst);
    [by rewrite Hs|].
  unfold fire, handler, after. rewrite (startCountdown_effect g i t Hi Ht).
  inv_open Hinv g. inv_finish.
Qed.

Lemma inv_ConfirmScore g : inv g → screen g = REVIEW → inv (fire ConfirmScore g).
Proof.
  intros Hinv Hs.
  destruct (inv_current g Hinv) as (i & t & c & Hi & Ht & Hc & HT & Hst);
    [by rewrite Hs|].
  pose proof (inv_teams g Hinv) as Hlen.
  unfold fire, handler, after. rewrite confirmScore_effect.
  erewrite endRound_effect; [|by destruct g ..].
  pose proof (Nat.mod_upper_bound (i + 1) (numberOfTeams g) HT) as Hmod.
  cbn. case_bool_decide as Hover; inv_open Hinv g;
    destruct (I5 eq_refl) as (_ & _ & [Hcard Hact] & _ & Hlt);
    specialize (Hlt ltac:(done)); split; cbn in *.
  all: try done.
  all: try (by rewrite length_insert).
  all: try (intros _; eexists; split; [reflexivity|done]).
  all: try (intros h Hh; lookups; naive_solver).
  all: intros _; unfold serving, activeCards, MAX_ROUNDS_PER_TEAM in *; cbn.
  all: repeat split; try done; try lia.
Qed.

Lemma inv_TeamCount n g :
  inv g → screen g = TEAM_SELECTION → inv (fire (TeamCount n) g).
Proof.
  intros Hinv Hs. unfold fire, handler, after.
  destruct (decide (activeCards g = [])) as [He|Hne].
  { rewrite (setup_no_cards n g He). unfold seatTeams.
    inv_open Hinv g. inv_finish.
    - apply pushTeams_length.
    - intros Hn. exists 0. split; [done|lia]. }
  destruct (setup_cards n g Hne) as (pool & Hperm & ->).
  assert (0 < length pool) as Hpool.
  { rewrite (Permutation_length Hperm). destruct (activeCards g); [done|simpl; lia]. }
  destruct n as [|n].
  - rewrite startCountdown_throws by (destruct g; reflexivity).
    clear Hperm. unfold seatTeams. inv_open Hinv g. inv_finish.
  - match goal with |- context [startCountdown ?x] => set (G := x) end.
    assert (currentTeamIndex G = Some 0) as Hi by (destruct g; reflexivity).
    assert (teams G !! 0 = Some (makeTeam 0)) as Ht.
    { replace (teams G) with (pushTeams (S n) 0 []) by (destruct g; reflexivity).
      apply pushTeams_lookup. lia. }
    rewrite (startCountdown_effect G 0 (makeTeam 0) Hi Ht).
    clear Hi Ht. subst G. unfold seatTeams.
    pose proof (pushTeams_length (S n)) as HL.
    set (ts := pushTeams (S n) 0 []) in *. clearbody ts.
    clear Hperm. inv_open Hinv g. split; cbn in *.
    + done.
    + intros _. exists 0. split; [done|lia].
    + intros h Hh. lookups; naive_solver.
    + intros h Hh. lookups; naive_solver.
    + intros _. unfold serving, activeCards. cbn. repeat split; try done; lia.
    + done.
Qed.

Lemma inv_fire e g : inv g → offered (screen g) e = true → inv (fire e g).
Proof.
  intros Hinv Hoff. destruct e; cbn in Hoff;
    try apply bool_decide_eq_true_1 in Hoff.
  - by apply inv_PlayNow.
  - by apply inv_TeamCount.
  - by apply inv_DeckOption.
  - by apply inv_TimerOption.
  - by apply inv_NextRound.
  - by apply inv_NewGame.
  - by apply inv_SkipCountdown.
  - by apply (inv_resolve correct).
  - by apply (inv_resolve skipped).
  - by apply inv_ConfirmScore.
  - by apply inv_Pause.
  - by apply inv_Quit.
  - by apply inv_ReviewToggle.
  - by apply inv_IntervalFires.
Qed.

Lemma inv_play_session es : ∀ g g',
  inv g → play es g = Some g' → inv g'.
Proof.
  induction es as [|e es IH]; intros g g' Hinv Hplay; simpl in Hplay.
  - by simplify_eq.
  - destruct (offered (screen g) e) eqn:Hoff; [|done].
    eapply IH; [|done]. by apply inv_fire.
Qed.

(** ** End of game and turn order over sessions *)

Lemma confirm_in_session g :
  inv g → screen g = REVIEW →
  ∃ i t,
    currentTeamIndex g = Some i ∧ teams g !! i = Some t ∧ i < numberOfTeams g
    ∧ totalRoundsCompleted g < numberOfTeams g * MAX_ROUNDS_PER_TEAM
    ∧ fire ConfirmScore g =
        let g1 :=
          set_totalRoundsCompleted (totalRoundsCompleted g + 1)
            (set_currentTeamIndex (Some ((i + 1) mod numberOfTeams g))
               (set_teams (<[i := addScore (countCorrect (roundCards g)) t]> (teams g))
                  (set_intervals (cancel (timerInterval g) (intervals g))
                     (set_roundScore (countCorrect (roundCards g)) g)))) in
        if bool_decide (numberOfTeams g * MAX_ROUNDS_PER_TEAM
                        ≤ totalRoundsCompleted g + 1)
        then set_screen GAME_OVER (set_state GAME_OVER g1)
        else set_screen ROUND_OVER (set_state ROUND_OVER g1).
Proof.
  intros Hinv Hs.
  destruct (inv_current g Hinv) as (i & t & c & Hi & Ht & Hc & HT & Hst);
    [by rewrite Hs|].
  destruct (inv_play g Hinv) as (_ & _ & _ & _ & Hlt); [by rewrite Hs|].
  specialize (Hlt ltac:(by rewrite Hs)).
  pose proof (inv_teams g Hinv) as Hlen.
  exists i, t. split; [done|]. split; [done|]. split.
  { apply lookup_lt_Some in Ht. lia. }
  split; [done|].
  unfold fire, handler, after. rewrite confirmScore_effect.
  erewrite endRound_effect; [|by destruct g ..].
  destruct g; reflexivity.
Qed.

(** C2. In every session, a round confirmation is offered only while
    fewer than [3 * numberOfTeams] rounds are completed; it adds one to
    the count, and the phase it leaves is GAME_OVER exactly when the new
    count equals [numberOfTeams * 3] and ROUND_OVER otherwise, whatever
    the turn pointer. And wherever in a session the phase is GAME_OVER,
    the count is exactly [numberOfTeams * 3], never more. *)
Theorem game_over_exactly_after_last_round
    (data : gmap string (list Card)) (rnd : nat → nat)
    (es : list Event) (g : GameManager) :
  play es (newGame data rnd) = Some g →
  (state g = GAME_OVER →
     totalRoundsCompleted g = numberOfTeams g * MAX_ROUNDS_PER_TEAM)
  ∧ (offered (screen g) ConfirmScore = true →
       let g' := fire ConfirmScore g in
       numberOfTeams g' = numberOfTeams g
       ∧ totalRoundsCompleted g' = totalRoundsCompleted g + 1
       ∧ totalRoundsCompleted g' ≤ numberOfTeams g * MAX_ROUNDS_PER_TEAM
       ∧ (state g' = GAME_OVER ↔
            totalRoundsCompleted g' = numberOfTeams g * MAX_ROUNDS_PER_TEAM)
       ∧ (state g' = ROUND_OVER ↔
            totalRoundsCompleted g' < numberOfTeams g * MAX_ROUNDS_PER_TEAM)).
Proof.
  intros Hplay.
  assert (inv g) as Hinv by (eapply inv_play_session; [apply inv_new|done]).
  split.
  - intros Hover. pose proof (inv_over g Hinv Hover) as Hscr.
    destruct (inv_play g Hinv) as (_ & _ & _ & Heq & _); [by rewrite Hscr|].
    by apply Heq.
  - intros Hoff g'. cbn in Hoff. apply bool_decide_eq_true_1 in Hoff.
    destruct (confirm_in_session g Hinv Hoff) as (i & t & _ & _ & _ & Hlt & Heq).
    subst g'. rewrite Heq. cbn. unfold MAX_ROUNDS_PER_TEAM in *.
    case_bool_decide; destruct g; cbn in *;
      (split; [done|]); (split; [done|]); (split; [lia|]);
      split; split; intros; first [done|lia].
Qed.

Lemma demoLastReview_session :
  play demoThreeRounds demoGame = Some demoLastReview
  ∧ play demoFirstRound demoGame = Some demoFirstReview.
Proof. split; vm_compute; reflexivity. Qed.

(** The third confirmation of the one-team game ends it; the first
    leads to ROUND_OVER. *)
Lemma game_over_exactly_after_last_round_witness :
  state (fire ConfirmScore demoLastReview) = GAME_OVER
  ∧ state (fire ConfirmScore demoFirstReview) = ROUND_OVER.
Proof.
  split.
  - destruct (game_over_exactly_after_last_round demoData (fun k => k)
                demoThreeRounds demoLastReview) as [_ H].
    + vm_compute. reflexivity.
    + destruct H as (_ & _ & _ & [_ H] & _); [reflexivity|].
      apply H. reflexivity.
  - destruct (game_over_exactly_after_last_round demoData (fun k => k)
                demoFirstRound demoFirstReview) as [_ H].
    + vm_compute. reflexivity.
    + destruct H as (_ & _ & _ & _ & [_ H]); [reflexivity|].
      apply H. vm_compute. lia.
Defined.

Lemma turn_startRound g live :
  inv g → screen g = GET_READY →
  numberOfTeams (after startRound (set_intervals live g)) = numberOfTeams g
  ∧ currentTeamIndex (after startRound (set_intervals live g)) = currentTeamIndex g.
Proof.
  intros Hinv Hs.
  destruct (inv_current g Hinv) as (i & t & c & Hi & Ht & Hc & HT & Hst);
    [by rewrite Hs|].
  unfold after. erewrite startRound_effect; [|by destruct g ..].
  by destruct g.
Qed.

Lemma turn_step e g :
  inv g → offered (screen g) e = true → isSetup e = false →
  numberOfTeams (fire e g) = numberOfTeams g
  ∧ currentTeamIndex (fire e g)
    = turnAfter e (numberOfTeams g) (currentTeamIndex g).
Proof.
  intros Hinv Hoff Hset. destruct e; cbn in Hoff, Hset |- *;
    try apply bool_decide_eq_true_1 in Hoff; try done.
  - by destruct g.
  - destruct (toggleDeck_effect deck g) as [decks Hd].
    assert (fire (DeckOption deck) g = set_selectedDecks decks g) as ->.
    { rewrite <- Hd. unfold fire, after, handler. js.
      by destruct (toggleDeck deck g) as [[] ?]. }
    by destruct g.
  - by destruct g.
  - destruct (inv_current g Hinv) as (i & t & c & Hi & Ht & Hc & HT & Hst);
      [by rewrite Hoff|].
    unfold fire, handler, after. rewrite (startCountdown_effect g i t Hi Ht).
    by destruct g.
  - by destruct g.
  - unfold fire, handler, after. rewrite skipCountdown_effect.
    by apply turn_startRound.
  - destruct (inv_play g Hinv) as (_ & _ & Hserv & _); [by rewrite Hoff|].
    destruct (resolveCard_effect correct g Hserv) as (? & ? & ? & ? & ? & Heq & _).
    unfold fire, handler, after. change handleCorrect with (resolveCard correct).
    rewrite Heq. by destruct g.
  - destruct (inv_play g Hinv) as (_ & _ & Hserv & _); [by rewrite Hoff|].
    destruct (resolveCard_effect skipped g Hserv) as (? & ? & ? & ? & ? & Heq & _).
    unfold fire, handler, after. change handlePass with (resolveCard skipped).
    rewrite Heq. by destruct g.
  - destruct (confirm_in_session g Hinv Hoff) as (i & t & Hi & _ & _ & _ & Heq).
    rewrite Heq, Hi. cbn. by case_bool_decide; destruct g.
  - destruct (inv_current g Hinv) as (_ & _ & _ & _ & _ & _ & _ & Hst);
      [by rewrite Hoff|]. rewrite Hoff in Hst.
    unfold fire, after, handler. destruct (isPaused g) eqn:Hp.
    + rewrite (togglePause_resumes g Hst Hp). by destruct g.
    + rewrite (togglePause_pauses g Hst Hp). by destruct g.
  - destruct confirmed; by destruct g.
  - unfold fire, after, handler.
    destruct (toggleCardStatus_frame index g) as (rc & -> & _). by destruct g.
  - unfold fire, handler, after. js. cbn.
    destruct (intervals g !! handle) as [[]|] eqn:Hh; [| |done].
    + destruct (inv_timer g Hinv _ Hh) as (? & ? & Hp).
      rewrite (updateTimer_effect g Hp). by case_bool_decide; destruct g.
    + destruct (inv_countdown g Hinv _ Hh) as (Hs & ?).
      rewrite countdownTick_effect. case_bool_decide; [|by destruct g].
      set (g' := set_countdownTime (countdownTime g - 1)%Z g).
      replace (set_intervals _ g')
        with (set_intervals (cancel (countdownInterval g) (intervals g)) g')
        by (by destruct g).
      destruct (turn_startRound g' (cancel (countdownInterval g) (intervals g)))
        as [H1 H2]; [by apply inv_set_countdownTime|by destruct g|].
      unfold after in H1, H2. rewrite H1, H2. by destruct g.
Qed.

Lemma turn_session es : ∀ g g' i,
  inv g → play es g = Some g' → forallb (fun e => negb (isSetup e)) es = true →
  numberOfTeams g ≠ 0 → currentTeamIndex g = Some i →
  numberOfTeams g' = numberOfTeams g
  ∧ currentTeamIndex g' = Some ((i + confirmations es) mod numberOfTeams g).
Proof.
  induction es as [|e es IH]; intros g g' i Hinv Hplay Hno HT Hi; simpl in Hplay.
  - simplify_eq. split; [done|]. unfold confirmations. simpl.
    destruct (inv_turn g' Hinv HT) as (j & Hj & Hlt).
    rewrite Hi in Hj. simplify_eq. by rewrite Nat.add_0_r, Nat.mod_small.
  - destruct (offered (screen g) e) eqn:Hoff; [|done].
    simpl in Hno. apply andb_true_iff in Hno as [He Hno].
    apply negb_true_iff in He.
    destruct (turn_step e g Hinv Hoff He) as [HT' Hturn].
    pose proof (inv_fire e g Hinv Hoff) as Hinv'.
    unfold confirmations. rewrite filter_cons.
    destruct (decide (e = ConfirmScore)) as [->|Hne].
    + cbn in Hturn. rewrite Hi in Hturn. cbn in Hturn.
      destruct (IH _ _ _ Hinv' Hplay Hno ltac:(by rewrite HT') Hturn) as [H1 H2].
      rewrite HT' in H1, H2. split; [done|]. rewrite H2. f_equal. simpl.
      fold (confirmations es).
      rewrite Nat.Div0.add_mod_idemp_l. f_equal. lia.
    + assert (turnAfter e (numberOfTeams g) (currentTeamIndex g)
              = currentTeamIndex g) as Hsame by (by destruct e).
      rewrite Hsame, Hi in Hturn.
      destruct (IH _ _ _ Hinv' Hplay Hno ltac:(by rewrite HT') Hturn) as [H1 H2].
      rewrite HT' in H1, H2. done.
Qed.

(** C3. In every session, the confirmation of a round adds the
    confirmed score to the team whose turn it was and to no other, and
    then moves the turn pointer from [i] to [(i + 1) mod numberOfTeams].
    Over any further stretch of the session without a new setup that
    holds exactly [numberOfTeams] confirmations (and whatever else in
    between), the turn pointer ends where it started. *)
Theorem turn_pointer_cycles
    (data : gmap string (list Card)) (rnd : nat → nat)
    (es : list Event) (g : GameManager) :
  play es (newGame data rnd) = Some g →
  (offered (screen g) ConfirmScore = true →
     ∃ i t,
       currentTeamIndex g = Some i ∧ teams g !! i = Some t
       ∧ 1 ≤ numberOfTeams g
       ∧ teams (fire ConfirmScore g)
         = <[i := addScore (countCorrect (roundCards g)) t]> (teams g)
       ∧ currentTeamIndex (fire ConfirmScore g)
         = Some ((i + 1) mod numberOfTeams g))
  ∧ (∀ es' g',
       play es' g = Some g' →
       forallb (fun e => negb (isSetup e)) es' = true →
       1 ≤ numberOfTeams g →
       confirmations es' = numberOfTeams g →
       currentTeamIndex g' = currentTeamIndex g).
Proof.
  intros Hplay.
  assert (inv g) as Hinv by (eapply inv_play_session; [apply inv_new|done]).
  split.
  - intros Hoff. cbn in Hoff. apply bool_decide_eq_true_1 in Hoff.
    destruct (confirm_in_session g Hinv Hoff) as (i & t & Hi & Ht & Hlt & _ & Heq).
    exists i, t. rewrite Heq. cbn.
    split; [done|]. split; [done|]. split; [lia|].
    by case_bool_decide; destruct g.
  - intros es' g' Hplay' Hno HT Hcount.
    destruct (inv_turn g Hinv) as (i & Hi & Hlt); [lia|].
    destruct (turn_session es' g g' i Hinv Hplay' Hno) as [_ ->]; [lia|done|].
    rewrite Hi, Hcount. f_equal.
    rewrite <- Nat.Div0.add_mod_idemp_r, Nat.Div0.mod_same, Nat.add_0_r.
    by apply Nat.mod_small.
Qed.

Lemma turn_pointer_cycles_witness :
  currentTeamIndex (fire ConfirmScore demoDuoReview) = Some 1
  ∧ score <$> teams (fire ConfirmScore demoDuoReview) = [1; 0]
  ∧ currentTeamIndex (run demoDuoCycle demoDuoReview)
    = currentTeamIndex demoDuoReview.
Proof.
  destruct (turn_pointer_cycles demoData (fun k => k) demoDuoRound demoDuoReview)
    as [H1 H2]; [vm_compute; reflexivity|].
  split; [|split].
  - destruct H1 as (i & t & Hi & _ & _ & _ & ->); [reflexivity|].
    vm_compute in Hi. by simplify_eq.
  - destruct H1 as (i & t & Hi & Ht & _ & -> & _); [reflexivity|].
    vm_compute in Hi. simplify_eq. vm_compute in Ht. by simplify_eq.
  - apply (H2 demoDuoCycle).
    + vm_compute. reflexivity.
    + reflexivity.
    + vm_compute. lia.
    + reflexivity.
Defined.

(** In a session, whenever one of the screens of a running game is
    active, a card is under the cursor. *)
Corollary session_card_on_display
    (data : gmap string (list Card)) (rnd : nat → nat)
    (es : list Event) (g : GameManager) :
  play es (newGame data rnd) = Some g →
  inPlay (screen g) = true →
  ∃ card, shuffledCards g !! currentCardIndex g = Some card.
Proof.
  intros Hplay Hscr.
  assert (inv g) as Hinv by (eapply inv_play_session; [apply inv_new|done]).
  destruct (inv_current g Hinv Hscr) as (_ & _ & c & _ & _ & Hc & _). eauto.
Qed.

(** * Further properties of the code *)

(** ** Review: toggles and the confirmed score *)

Lemma flipStatus_involutive e : flipStatus (flipStatus e) = e.
Proof. destruct e as [w []]; reflexivity. Qed.

Lemma countCorrect_app l1 l2 :
  countCorrect (l1 ++ l2) = countCorrect l1 + countCorrect l2.
Proof. unfold countCorrect. by rewrite filter_app, length_app. Qed.

Lemma countCorrect_cons e l :
  countCorrect (e :: l)
  = (if decide (status e = correct) then 1 else 0) + countCorrect l.
Proof.
  unfold countCorrect. rewrite filter_cons. by destruct (decide _).
Qed.

Lemma countCorrect_flip l : ∀ i item,
  l !! i = Some item →
  countCorrect (<[i := flipStatus item]> l) + (if decide (status item = correct) then 1 else 0)
  = countCorrect l + (if decide (status item = correct) then 0 else 1).
Proof.
  induction l as [|e l IH]; intros [|i] item Hi; simplify_eq/=.
  - rewrite !countCorrect_cons. destruct item as [w []]; unfold flipStatus;
      cbn; repeat case_decide; try done; lia.
  - rewrite !countCorrect_cons. specialize (IH i item Hi). lia.
Qed.

(** X1. Toggling the same review entry twice gives back the object as
    it was, for every index, in range or not. *)
Theorem toggleCardStatus_twice (g : GameManager) (index : Z) :
  after (toggleCardStatus index) (after (toggleCardStatus index) g) = g.
Proof.
  unfold toggleCardStatus, entryAt. js. cbn.
  destruct (bool_decide (0 ≤ index)%Z); [|done].
  destruct (roundCards g !! Z.to_nat index) as [item|] eqn:Hitem; cbn.
  - replace (roundCards (set_roundCards _ g))
      with (<[Z.to_nat index := flipStatus item]> (roundCards g)) by (by destruct g).
    rewrite list_lookup_insert_eq by (by apply lookup_lt_Some in Hitem). cbn.
    rewrite flipStatus_involutive, list_insert_insert_eq, list_insert_id by done.
    by destruct g.
  - by rewrite Hitem.
Qed.

(** X2. One toggle of an entry of the round record moves the score that
    [confirmScore] then stores by exactly one: down for an entry that was
    correct, up for one that was skipped. *)
Theorem toggle_moves_confirmed_score_by_one
    (g : GameManager) (index : Z) (item : RoundEntry) :
  (0 ≤ index)%Z →
  roundCards g !! Z.to_nat index = Some item →
  let before := roundScore (after confirmScore g) in
  let toggled := roundScore (after confirmScore (after (toggleCardStatus index) g)) in
  match status item with
  | correct => toggled + 1 = before
  | skipped => toggled = before + 1
  end.
Proof.
  intros Hpos Hitem. cbn. rewrite !confirmScore_roundScore.
  assert (roundCards (after (toggleCardStatus index) g)
          = <[Z.to_nat index := flipStatus item]> (roundCards g)) as ->.
  { unfold toggleCardStatus, entryAt, after. js. cbn.
    rewrite bool_decide_eq_true_2 by done. rewrite Hitem. by destruct g. }
  pose proof (countCorrect_flip _ _ _ Hitem) as H. revert H.
  destruct (status item); repeat case_decide; try done; lia.
Qed.

Lemma toggle_moves_confirmed_score_by_one_witness :
  roundScore (after confirmScore (after (toggleCardStatus 0) demoTwoCards)) + 1
  = roundScore (after confirmScore demoTwoCards).
Proof.
  apply (toggle_moves_confirmed_score_by_one demoTwoCards 0 (MkEntry "Lagos" correct)).
  - lia.
  - reflexivity.
Defined.

(** ** Deck selection: a double click *)

Lemma filter_ne_absent (deck : string) (l : list string) :
  deck ∉ l → filter (fun d => d ≠ deck) l = l.
Proof.
  induction l as [|a l IH]; intros Hnin; [done|].
  apply not_elem_of_cons in Hnin as [Hne Hnin].
  rewrite filter_cons_True by done. by rewrite IH.
Qed.

(** X3. With a duplicate-free, non-empty selection, clicking the same
    deck twice leaves the same decks selected; if the deck was not
    selected before, the selection is restored exactly, order included. *)
Theorem toggleDeck_twice (g : GameManager) (deck : string) :
  decksOk g →
  let g2 := after (toggleDeck deck) (after (toggleDeck deck) g) in
  (∀ d, d ∈ selectedDecks g2 ↔ d ∈ selectedDecks g)
  ∧ (deck ∉ selectedDecks g → g2 = g)
  ∧ decksOk g2.
Proof.
  intros [Hnd Hne] g2. subst g2. unfold decksOk.
  destruct (decide (selectedDecks g = [deck])) as [Hlast|Hother].
  { unfold after. rewrite (toggleDeck_last deck g Hlast). cbn.
    rewrite (toggleDeck_last deck g Hlast). cbn.
    split; [done|]. split; [done|]. by split. }
  destruct (decide (deck ∈ selectedDecks g)) as [Hin|Hnin].
  - assert (1 < length (selectedDecks g)) as Hlen.
    { destruct (selectedDecks g) as [|a [|b l]] eqn:E; simpl; [done| |lia].
      apply list_elem_of_singleton in Hin as ->. done. }
    assert (after (toggleDeck deck) g
            = set_selectedDecks (filter (fun d => d ≠ deck) (selectedDecks g)) g)
      as ->.
    { unfold after, toggleDeck. js. cbn.
      by rewrite !bool_decide_eq_true_2. }
    set (rest := filter (fun d => d ≠ deck) (selectedDecks g)).
    assert (deck ∉ rest) as Hrest.
    { intros [H _]%list_elem_of_filter. done. }
    assert (after (toggleDeck deck) (set_selectedDecks rest g)
            = set_selectedDecks (rest ++ [deck]) g) as ->.
    { unfold after, toggleDeck. js. cbn.
      replace (selectedDecks (set_selectedDecks rest g)) with rest by (by destruct g).
      rewrite bool_decide_eq_false_2 by done. by destruct g. }
    replace (selectedDecks (set_selectedDecks (rest ++ [deck]) g))
      with (rest ++ [deck]) by (by destruct g).
    split; [|split; [done|split]].
    + intros d. rewrite elem_of_app, list_elem_of_singleton.
      subst rest. rewrite list_elem_of_filter.
      destruct (decide (d = deck)) as [->|]; naive_solver.
    + apply NoDup_app. split; [by apply NoDup_filter|].
      split; [|apply NoDup_singleton].
      intros x Hx ->%list_elem_of_singleton. done.
    + intros H. by apply app_eq_nil in H as [_ ?].
  - assert (after (toggleDeck deck) g
            = set_selectedDecks (selectedDecks g ++ [deck]) g) as ->.
    { unfold after, toggleDeck. js. cbn.
      by rewrite bool_decide_eq_false_2. }
    assert (after (toggleDeck deck) (set_selectedDecks (selectedDecks g ++ [deck]) g)
            = g) as ->.
    { unfold after, toggleDeck. js. cbn.
      replace (selectedDecks (set_selectedDecks (selectedDecks g ++ [deck]) g))
        with (selectedDecks g ++ [deck]) by (by destruct g).
      rewrite bool_decide_eq_true_2 by (apply elem_of_app; right; by left).
      rewrite bool_decide_eq_true_2.
      2:{ rewrite length_app. simpl. destruct (selectedDecks g); [done|simpl; lia]. }
      cbn. rewrite filter_app, filter_cons_False, filter_nil, app_nil_r
        by (intros H; by apply H).
      rewrite filter_ne_absent by done. by destruct g. }
    split; [done|]. split; [done|]. by split.
Qed.

Lemma toggleDeck_twice_witness :
  after (toggleDeck "global") (after (toggleDeck "global") demoGame) = demoGame.
Proof.
  refine (proj1 (proj2 (toggleDeck_twice demoGame "global" _)) _).
  - split; [apply NoDup_singleton|done].
  - vm_compute. intros H. apply list_elem_of_singleton in H. discriminate.
Defined.

(** ** The two clocks *)

Lemma startRound_countdownTime v g :
  startRound (set_countdownTime v g)
  = (fst (startRound g), set_countdownTime v (snd (startRound g))).
Proof.
  destruct g. unfold startRound, updateCard, endRound, showFinalWinner,
    renderScreen, setInterval, clearInterval, currentTeam, nextIndex.
  js_run; done.
Qed.

Lemma countdownTick_waits g :
  (1 < countdownTime g)%Z →
  after countdownTick g = set_countdownTime (countdownTime g - 1)%Z g.
Proof.
  intros H. unfold after. rewrite countdownTick_effect.
  by rewrite bool_decide_eq_false_2 by lia.
Qed.

Lemma countdown_waits n : ∀ g m,
  countdownTime g = Z.of_nat (S n) → m ≤ n →
  Nat.iter m (after countdownTick) g
  = set_countdownTime (Z.of_nat (S n) - Z.of_nat m)%Z g.
Proof.
  intros g m Hc. induction m as [|m IH]; intros Hm.
  - simpl. rewrite Z.sub_0_r, <- Hc. by destruct g.
  - simpl. rewrite IH by lia. rewrite countdownTick_waits.
    + destruct g; cbn. f_equal. lia.
    + destruct g; cbn. lia.
Qed.

(** X4. A countdown that reads [n + 1] stays in its phase for [n]
    ticks, each taking one off [countdownTime] and nothing else; tick
    [n + 1] does what the skip button does, and leaves 0 on the clock:
    waiting out the countdown and skipping it start the same round. *)
Theorem countdown_runs_out_like_skip (g : GameManager) (n : nat) :
  countdownTime g = Z.of_nat (S n) →
  (∀ m, m ≤ n →
     Nat.iter m (after countdownTick) g
     = set_countdownTime (Z.of_nat (S n) - Z.of_nat m)%Z g)
  ∧ Nat.iter (S n) (after countdownTick) g
    = set_countdownTime 0 (after skipCountdown g).
Proof.
  intros Hc. split; [intros m; by apply countdown_waits|].
  simpl. rewrite (countdown_waits n g n Hc) by lia.
  unfold after. rewrite countdownTick_effect, skipCountdown_effect.
  rewrite bool_decide_eq_true_2 by (destruct g; cbn; lia).
  match goal with |- snd (startRound ?x) = _ =>
    replace x with (set_countdownTime 0
                      (set_intervals (cancel (countdownInterval g) (intervals g)) g))
      by (destruct g; cbn; f_equal; lia) end.
  by rewrite startRound_countdownTime.
Qed.

Lemma countdown_runs_out_like_skip_witness :
  Nat.iter 10 (after countdownTick) demoReady
  = set_countdownTime 0 (after skipCountdown demoReady).
Proof.
  apply (proj2 (countdown_runs_out_like_skip demoReady 9 eq_refl)).
Defined.

Lemma updateTimer_counts g :
  isPaused g = false → (1 < timeLeft g)%Z →
  after updateTimer g = set_timeLeft (timeLeft g - 1)%Z g.
Proof.
  intros Hp H. unfold after. rewrite (updateTimer_effect g Hp).
  by rewrite bool_decide_eq_false_2 by lia.
Qed.

Lemma timer_counts n : ∀ g m,
  isPaused g = false → timeLeft g = Z.of_nat (S n) → m ≤ n →
  Nat.iter m (after updateTimer) g
  = set_timeLeft (Z.of_nat (S n) - Z.of_nat m)%Z g.
Proof.
  intros g m Hp Hc. induction m as [|m IH]; intros Hm.
  - simpl. rewrite Z.sub_0_r, <- Hc. by destruct g.
  - simpl. rewrite IH by lia. rewrite updateTimer_counts.
    + destruct g; cbn. f_equal. lia.
    + by destruct g.
    + destruct g; cbn. lia.
Qed.

(** X5. An unpaused round clock that reads [n + 1] counts down for [n]
    ticks, changing [timeLeft] and nothing else; tick [n + 1] puts 0 on
    the clock, cancels the round interval and opens the review, with the
    round record and the provisional score as they were. A clock that
    reads 1 or less (a round time of zero or below) opens the review at
    its first tick, with [timeLeft] one lower. *)
Theorem round_clock_runs_out (g : GameManager) (n : nat) :
  isPaused g = false →
  (timeLeft g = Z.of_nat (S n) →
     (∀ m, m ≤ n →
        Nat.iter m (after updateTimer) g
        = set_timeLeft (Z.of_nat (S n) - Z.of_nat m)%Z g)
     ∧ Nat.iter (S n) (after updateTimer) g
       = set_screen REVIEW
           (set_intervals (cancel (timerInterval g) (intervals g))
              (set_state REVIEW (set_timeLeft 0 g))))
  ∧ ((timeLeft g ≤ 1)%Z →
       after updateTimer g
       = set_screen REVIEW
           (set_intervals (cancel (timerInterval g) (intervals g))
              (set_state REVIEW (set_timeLeft (timeLeft g - 1)%Z g)))).
Proof.
  intros Hp. split.
  - intros Hc. split; [intros m; by apply timer_counts|].
    simpl. rewrite (timer_counts n g n Hp Hc) by lia.
    unfold after. rewrite updateTimer_effect by (by destruct g).
    rewrite bool_decide_eq_true_2 by (destruct g; cbn; lia).
    destruct g; cbn. do 2 f_equal. lia.
  - intros Hle. unfold after. rewrite (updateTimer_effect g Hp).
    by rewrite bool_decide_eq_true_2 by lia.
Qed.

Lemma round_clock_runs_out_witness :
  state (Nat.iter 30 (after updateTimer) demoOneCorrect) = REVIEW
  ∧ roundCards (Nat.iter 30 (after updateTimer) demoOneCorrect)
    = roundCards demoOneCorrect.
Proof.
  destruct (round_clock_runs_out demoOneCorrect 29 eq_refl) as [H _].
  destruct (H eq_refl) as [_ ->]. split; reflexivity.
Defined.

(** ** Setup with no team *)

(** X6. With cards to play but a team count of 0, [setupAndStartGame]
    ends in a TypeError raised by [startCountdown]: the phase is already
    GET_READY, but the screen is not rendered, no interval is registered
    and no alert is shown; the team list is empty and the pool is
    shuffled. *)
Theorem setup_zero_teams_throws (g : GameManager) :
  activeCards g ≠ [] →
  let g' := after (setupAndStartGame 0) g in
  completion (setupAndStartGame 0) g = Thrown
  ∧ state g' = GET_READY
  ∧ screen g' = screen g
  ∧ intervals g' = intervals g
  ∧ countdownInterval g' = countdownInterval g
  ∧ alerts g' = alerts g
  ∧ teams g' = [] ∧ numberOfTeams g' = 0
  ∧ shuffledCards g' ≡ₚ activeCards g ∧ currentCardIndex g' = 0.
Proof.
  intros Hne g'. subst g'. unfold after, completion.
  destruct (setup_cards 0 g Hne) as (pool & Hperm & ->).
  rewrite startCountdown_throws by (destruct g; reflexivity).
  by destruct g.
Qed.

Lemma setup_zero_teams_throws_witness :
  completion (setupAndStartGame 0) demoGame = Thrown
  ∧ state (after (setupAndStartGame 0) demoGame) = GET_READY
  ∧ screen (after (setupAndStartGame 0) demoGame) = WELCOME.
Proof.
  destruct (setup_zero_teams_throws demoGame) as (H1 & H2 & H3 & _).
  - vm_compute. discriminate.
  - split; [exact H1|]. split; [exact H2|exact H3].
Defined.

(** ** The pool runs dry *)

Lemma nextCard_dry g :
  activeCards g = [] →
  length (shuffledCards g) ≤ currentCardIndex g + 1 →
  nextCard g = endRound (set_currentCardIndex 0 (set_shuffledCards [] g)).
Proof.
  intros He Hlen. destruct g. unfold nextCard, updateCard, shuffleArray,
    activeCards in *. js. cbn in *.
  rewrite bool_decide_eq_true_2 by lia. cbn. rewrite He. cbn.
  by rewrite Nat.add_0_r.
Qed.

(** X7. When the cursor passes the end of the pool while the selected
    decks hold no card, [nextCard] leaves an empty pool and ends the
    round on the spot, without review: the provisional score goes to the
    team whose turn it is, the turn moves on, the round is counted, and
    the phase is ROUND_OVER or GAME_OVER. From then on correct and pass
    clicks do nothing. *)
Theorem dry_pool_ends_round (g : GameManager) (i : nat) (t : Team) :
  activeCards g = [] →
  length (shuffledCards g) ≤ currentCardIndex g + 1 →
  currentTeamIndex g = Some i → teams g !! i = Some t →
  numberOfTeams g ≠ 0 → length (teams g) = numberOfTeams g →
  let g' := after nextCard g in
  completion nextCard g = Normal tt
  ∧ shuffledCards g' = [] ∧ currentCardIndex g' = 0
  ∧ teams g' = <[i := addScore (roundScore g) t]> (teams g)
  ∧ currentTeamIndex g' = Some ((i + 1) mod numberOfTeams g)
  ∧ totalRoundsCompleted g' = totalRoundsCompleted g + 1
  ∧ (state g' = ROUND_OVER ∨ state g' = GAME_OVER)
  ∧ roundCards g' = roundCards g
  ∧ handleCorrect g' = (Normal tt, g')
  ∧ handlePass g' = (Normal tt, g').
Proof.
  intros He Hlen Hi Ht HT Hteams g'. subst g'. unfold after, completion.
  rewrite (nextCard_dry g He Hlen).
  erewrite endRound_effect; [|by destruct g ..].
  cbn. case_bool_decide; destruct g; cbn in *;
    repeat (split; [done|]); split; auto.
Qed.

Lemma dry_pool_ends_round_witness :
  state (after nextCard demoDry) = ROUND_OVER
  ∧ score <$> teams (after nextCard demoDry) = [1; 0].
Proof.
  destruct (dry_pool_ends_round demoDry 0 (MkTeam "Team 1" 0 (Some "var(--team1-color)")))
    as (_ & _ & _ & H4 & _ & _ & H7 & _).
  - reflexivity.
  - vm_compute. lia.
  - reflexivity.
  - reflexivity.
  - vm_compute. lia.
  - reflexivity.
  - split; [|rewrite H4; reflexivity].
    destruct H7 as [H|H]; [exact H|]. vm_compute in H. discriminate.
Defined.

(** ** Sessions: intervals *)

Lemma session_inv data rnd es g : play es (newGame data rnd) = Some g → inv g.
Proof. intros H. eapply inv_play_session; [apply inv_new|done]. Qed.

Lemma inv_idle g :
  inv g → screen g ≠ PLAYING → screen g ≠ GET_READY → intervals g = ∅.
Proof.
  intros Hinv Hp Hr. apply map_empty. intros h.
  destruct (intervals g !! h) as [[]|] eqn:Hh; [| |done].
  - by destruct (inv_timer g Hinv h Hh).
  - by destruct (inv_countdown g Hinv h Hh).
Qed.

(** X8. All along a session at most one interval is live. A live round
    interval is the one whose handle [timerInterval] holds, and then the
    game is PLAYING and not paused; a live countdown interval is the one
    in [countdownInterval], and then the game is in GET_READY; on every
    other screen no interval is live. *)
Theorem session_intervals_exclusive
    (data : gmap string (list Card)) (rnd : nat → nat)
    (es : list Event) (g : GameManager) :
  play es (newGame data rnd) = Some g →
  (∀ h1 h2 t1 t2,
     intervals g !! h1 = Some t1 → intervals g !! h2 = Some t2 → h1 = h2)
  ∧ (∀ h, intervals g !! h = Some TimerTask →
       state g = PLAYING ∧ isPaused g = false ∧ timerInterval g = Some h)
  ∧ (∀ h, intervals g !! h = Some CountdownTask →
       state g = GET_READY ∧ countdownInterval g = Some h)
  ∧ (screen g ≠ PLAYING → screen g ≠ GET_READY → intervals g = ∅).
Proof.
  intros Hplay. pose proof (session_inv _ _ _ _ Hplay) as Hinv.
  split; [|split; [|split]].
  - intros h1 h2 [] [] H1 H2.
    + destruct (inv_timer g Hinv h1 H1) as (_ & E1 & _).
      destruct (inv_timer g Hinv h2 H2) as (_ & E2 & _). congruence.
    + destruct (inv_timer g Hinv h1 H1) as (E1 & _).
      destruct (inv_countdown g Hinv h2 H2) as (E2 & _). congruence.
    + destruct (inv_countdown g Hinv h1 H1) as (E1 & _).
      destruct (inv_timer g Hinv h2 H2) as (E2 & _). congruence.
    + destruct (inv_countdown g Hinv h1 H1) as (_ & E1).
      destruct (inv_countdown g Hinv h2 H2) as (_ & E2). congruence.
  - intros h Hh. destruct (inv_timer g Hinv h Hh) as (Hs & Ht & Hp).
    destruct (inv_play g Hinv) as (Hst & _); [by rewrite Hs|].
    split; [congruence|done].
  - intros h Hh. destruct (inv_countdown g Hinv h Hh) as (Hs & Ht).
    destruct (inv_play g Hinv) as (Hst & _); [by rewrite Hs|].
    split; [congruence|done].
  - intros Hp Hr. by apply inv_idle.
Qed.

Lemma session_intervals_exclusive_witness :
  intervals demoLastReview = ∅
  ∧ ∀ h, intervals demoPlaying !! h = Some TimerTask →
         timerInterval demoPlaying = Some h.
Proof.
  split.
  - destruct (session_intervals_exclusive demoData (fun k => k)
                demoThreeRounds demoLastReview) as (_ & _ & _ & H).
    + vm_compute. reflexivity.
    + apply H; vm_compute; discriminate.
  - intros h Hh.
    destruct (session_intervals_exclusive demoData (fun k => k)
                [PlayNow; TeamCount 2; SkipCountdown] demoPlaying) as (_ & H & _).
    + vm_compute. reflexivity.
    + by destruct (H h Hh) as (_ & _ & ?).
Defined.

(** X9. Once a session shows GAME_OVER, the object changes only by the
    reset buttons or a confirmed quit: every other event that can happen
    there, an interval firing or a declined quit, leaves it as it is. *)
Theorem game_over_waits_for_restart
    (data : gmap string (list Card)) (rnd : nat → nat)
    (es : list Event) (g : GameManager) (e : Event) :
  play es (newGame data rnd) = Some g →
  screen g = GAME_OVER →
  offered (screen g) e = true →
  e ≠ NewGame → e ≠ Quit true →
  fire e g = g ∧ completion (handler e) g = Normal tt.
Proof.
  intros Hplay Hs Hoff Hnew Hquit.
  pose proof (session_inv _ _ _ _ Hplay) as Hinv.
  rewrite Hs in Hoff.
  destruct e; cbn in Hoff; try (apply bool_decide_eq_true_1 in Hoff); try done.
  - by destruct confirmed.
  - unfold fire, after, completion, handler. js. cbn.
    rewrite (inv_idle g Hinv) by (by rewrite Hs). by rewrite lookup_empty.
Qed.

(** The one-team demo game after its third confirmation. *)
Lemma game_over_waits_for_restart_witness :
  fire (IntervalFires 6) (fire ConfirmScore demoLastReview)
  = fire ConfirmScore demoLastReview.
Proof.
  refine (proj1 (game_over_waits_for_restart demoData (fun k => k)
                   (demoThreeRounds ++ [ConfirmScore])
                   (fire ConfirmScore demoLastReview) (IntervalFires 6)
                   _ _ _ _ _)).
  - vm_compute. reflexivity.
  - reflexivity.
  - reflexivity.
  - discriminate.
  - discriminate.
Defined.

(** X10. After a reset button or a confirmed quit in a session no
    interval is left running, whatever the screen it happened on. *)
Theorem reset_and_quit_stop_all_timers
    (data : gmap string (list Card)) (rnd : nat → nat)
    (es : list Event) (g : GameManager) (e : Event) :
  play es (newGame data rnd) = Some g →
  offered (screen g) e = true →
  e = NewGame ∨ e = Quit true →
  intervals (fire e g) = ∅
  ∧ state (fire e g) = (if decide (e = NewGame) then TEAM_SELECTION else WELCOME)
  ∧ totalRoundsCompleted (fire e g) = 0
  ∧ teams (fire e g) = teams g.
Proof.
  intros Hplay Hoff He.
  pose proof (session_inv _ _ _ _ Hplay) as Hinv.
  pose proof (inv_fire e g Hinv Hoff) as Hinv'.
  split.
  - apply inv_idle; [done| |]; destruct He as [-> | ->]; by destruct g.
  - destruct He as [-> | ->]; by destruct g.
Qed.

Lemma reset_and_quit_stop_all_timers_witness :
  intervals (fire (Quit true) demoPlaying) = ∅.
Proof.
  refine (proj1 (reset_and_quit_stop_all_timers demoData (fun k => k)
                   [PlayNow; TeamCount 2; SkipCountdown] demoPlaying (Quit true)
                   _ _ _)).
  - vm_compute. reflexivity.
  - reflexivity.
  - by right.
Defined.

(** ** Sessions: which handler can throw *)

Lemma session_completion e g :
  inv g → offered (screen g) e = true →
  completion (handler e) g = Thrown →
  e = TeamCount 0 ∧ activeCards g ≠ [].
Proof.
  intros Hinv Hoff. unfold completion.
  destruct e; cbn in Hoff |- *;
    try apply bool_decide_eq_true_1 in Hoff.
  - by destruct g.
  - destruct (decide (activeCards g = [])) as [He|Hne].
    { by rewrite (setup_no_cards teamCount g He). }
    destruct teamCount as [|n]; [done|].
    destruct (setup_cards (S n) g Hne) as (pool & _ & ->).
    match goal with |- context [startCountdown ?x] => set (G := x) end.
    assert (currentTeamIndex G = Some 0) as Hi by (destruct g; reflexivity).
    assert (teams G !! 0 = Some (makeTeam 0)) as Ht.
    { replace (teams G) with (pushTeams (S n) 0 []) by (destruct g; reflexivity).
      apply pushTeams_lookup. lia. }
    by rewrite (startCountdown_effect G 0 (makeTeam 0) Hi Ht).
  - js. destruct (decide (selectedDecks g = [deck])) as [Hl|Ho].
    + by rewrite (toggleDeck_last deck g Hl).
    + by destruct (toggleDeck_other deck g Ho) as (decks & -> & _).
  - by destruct g.
  - destruct (inv_current g Hinv) as (i & t & c & Hi & Ht & Hc & HT & Hst);
      [by rewrite Hoff|].
    by rewrite (startCountdown_effect g i t Hi Ht).
  - by rewrite resetGame_effect.
  - destruct (inv_current g Hinv) as (i & t & c & Hi & Ht & Hc & HT & Hst);
      [by rewrite Hoff|].
    rewrite skipCountdown_effect.
    by erewrite startRound_effect; [|by destruct g ..].
  - destruct (inv_play g Hinv) as (_ & _ & Hserv & _); [by rewrite Hoff|].
    change handleCorrect with (resolveCard correct).
    by destruct (resolveCard_effect correct g Hserv) as (? & ? & ? & ? & ? & -> & _).
  - destruct (inv_play g Hinv) as (_ & _ & Hserv & _); [by rewrite Hoff|].
    change handlePass with (resolveCard skipped).
    by destruct (resolveCard_effect skipped g Hserv) as (? & ? & ? & ? & ? & -> & _).
  - destruct (inv_current g Hinv) as (i & t & c & Hi & Ht & Hc & HT & Hst);
      [by rewrite Hoff|].
    pose proof (inv_teams g Hinv) as Hlen.
    rewrite confirmScore_effect.
    by erewrite endRound_effect; [|by destruct g ..].
  - destruct (inv_current g Hinv) as (_ & _ & _ & _ & _ & _ & _ & Hst);
      [by rewrite Hoff|]. rewrite Hoff in Hst.
    destruct (isPaused g) eqn:Hp.
    + by rewrite (togglePause_resumes g Hst Hp).
    + by rewrite (togglePause_pauses g Hst Hp).
  - destruct confirmed; [by rewrite quitGame_effect|done].
  - by destruct (toggleCardStatus_frame index g) as (rc & -> & _).
  - js. cbn. destruct (intervals g !! handle) as [[]|] eqn:Hh; [| |done].
    + destruct (inv_timer g Hinv _ Hh) as (? & ? & Hp).
      by rewrite (updateTimer_effect g Hp).
    + destruct (inv_countdown g Hinv _ Hh) as (Hs & ?).
      rewrite countdownTick_effect. case_bool_decide; [|done].
      destruct (inv_current g Hinv) as (i & t & c & Hi & Ht & Hc & HT & Hst);
        [by rewrite Hs|].
      by erewrite startRound_effect; [|by destruct g ..].
Qed.

(** X11. In a session the only event handler that ends in an exception
    is a team-count click with count 0 while the selected decks hold
    cards; every other click and every interval callback returns
    normally. *)
Theorem session_only_zero_teams_throws
    (data : gmap string (list Card)) (rnd : nat → nat)
    (es : list Event) (g : GameManager) (e : Event) :
  play es (newGame data rnd) = Some g →
  offered (screen g) e = true →
  (completion (handler e) g = Thrown ↔ e = TeamCount 0 ∧ activeCards g ≠ []).
Proof.
  intros Hplay Hoff. pose proof (session_inv _ _ _ _ Hplay) as Hinv. split.
  - by apply session_completion.
  - intros [-> Hne]. unfold completion, handler.
    destruct (setup_cards 0 g Hne) as (pool & _ & ->).
    by rewrite startCountdown_throws by (destruct g; reflexivity).
Qed.

Lemma session_only_zero_teams_throws_witness :
  completion (handler (TeamCount 0)) (fire PlayNow demoGame) = Thrown
  ∧ completion (handler CorrectBtn) demoPlaying ≠ Thrown.
Proof.
  split.
  - apply (session_only_zero_teams_throws demoData (fun k => k)
             [PlayNow] (fire PlayNow demoGame) (TeamCount 0)).
    + reflexivity.
    + reflexivity.
    + split; [reflexivity|]. vm_compute. discriminate.
  - intros H.
    apply (session_only_zero_teams_throws demoData (fun k => k)
             [PlayNow; TeamCount 2; SkipCountdown] demoPlaying CorrectBtn) in H.
    + destruct H as [H _]. discriminate.
    + vm_compute. reflexivity.
    + reflexivity.
Defined.

(** ** Sessions: the points of the teams *)

Lemma teams_startRound g live :
  inv g → screen g = GET_READY →
  teams (after startRound (set_intervals live g)) = teams g.
Proof.
  intros Hinv Hs.
  destruct (inv_current g Hinv) as (i & t & c & Hi & Ht & Hc & HT & Hst);
    [by rewrite Hs|].
  unfold after. erewrite startRound_effect; [|by destruct g ..].
  by destruct g.
Qed.

Lemma teams_step e g :
  inv g → offered (screen g) e = true → isSetup e = false → e ≠ ConfirmScore →
  teams (fire e g) = teams g.
Proof.
  intros Hinv Hoff Hset Hconf. destruct e; cbn in Hoff, Hset |- *;
    try apply bool_decide_eq_true_1 in Hoff; try done.
  - by destruct g.
  - destruct (toggleDeck_effect deck g) as [decks Hd].
    assert (fire (DeckOption deck) g = set_selectedDecks decks g) as ->.
    { rewrite <- Hd. unfold fire, after, handler. js.
      by destruct (toggleDeck deck g) as [[] ?]. }
    by destruct g.
  - by destruct g.
  - destruct (inv_current g Hinv) as (i & t & c & Hi & Ht & Hc & HT & Hst);
      [by rewrite Hoff|].
    unfold fire, handler, after. rewrite (startCountdown_effect g i t Hi Ht).
    by destruct g.
  - by destruct g.
  - unfold fire, handler, after. rewrite skipCountdown_effect.
    by apply teams_startRound.
  - destruct (inv_play g Hinv) as (_ & _ & Hserv & _); [by rewrite Hoff|].
    destruct (resolveCard_effect correct g Hserv) as (? & ? & ? & ? & ? & Heq & _).
    unfold fire, handler, after. change handleCorrect with (resolveCard correct).
    rewrite Heq. by destruct g.
  - destruct (inv_play g Hinv) as (_ & _ & Hserv & _); [by rewrite Hoff|].
    destruct (resolveCard_effect skipped g Hserv) as (? & ? & ? & ? & ? & Heq & _).
    unfold fire, handler, after. change handlePass with (resolveCard skipped).
    rewrite Heq. by destruct g.
  - destruct (inv_current g Hinv) as (_ & _ & _ & _ & _ & _ & _ & Hst);
      [by rewrite Hoff|]. rewrite Hoff in Hst.
    unfold fire, after, handler. destruct (isPaused g) eqn:Hp.
    + rewrite (togglePause_resumes g Hst Hp). by destruct g.
    + rewrite (togglePause_pauses g Hst Hp). by destruct g.
  - destruct confirmed; by destruct g.
  - unfold fire, after, handler.
    destruct (toggleCardStatus_frame index g) as (rc & -> & _). by destruct g.
  - unfold fire, handler, after. js. cbn.
    destruct (intervals g !! handle) as [[]|] eqn:Hh; [| |done].
    + destruct (inv_timer g Hinv _ Hh) as (? & ? & Hp).
      rewrite (updateTimer_effect g Hp). by case_bool_decide; destruct g.
    + destruct (inv_countdown g Hinv _ Hh) as (Hs & ?).
      rewrite countdownTick_effect. case_bool_decide; [|by destruct g].
      set (g' := set_countdownTime (countdownTime g - 1)%Z g).
      replace (set_intervals _ g')
        with (set_intervals (cancel (countdownInterval g) (intervals g)) g')
        by (by destruct g).
      pose proof (teams_startRound g' (cancel (countdownInterval g) (intervals g)))
        as H1. unfold after in H1. rewrite H1;
        [by destruct g|by apply inv_set_countdownTime|by destruct g].
Qed.

Lemma totalScore_insert ts : ∀ i t n,
  ts !! i = Some t →
  totalScore (<[i := addScore n t]> ts) = totalScore ts + n.
Proof.
  unfold totalScore.
  induction ts as [|a ts IH]; intros [|i] t n Hi; simplify_eq/=.
  - lia.
  - rewrite (IH i t n Hi). lia.
Qed.

Lemma names_insert (ts : list Team) : ∀ (i : nat) t n,
  ts !! i = Some t →
  name <$> <[i := addScore n t]> ts = name <$> ts
  ∧ color <$> <[i := addScore n t]> ts = color <$> ts.
Proof.
  induction ts as [|a ts IH]; intros [|i] t n Hi; simplify_eq/=; [done|].
  destruct (IH i t n Hi) as [-> ->]. done.
Qed.

(** X12. In a session the team list changes only at a new setup and at
    the confirmation of a round. A confirmation adds the number of
    entries that are correct at that moment to the points of all teams
    together, takes no point from any team, and leaves names and colours
    alone. *)
Theorem session_points_change_only_at_confirmation
    (data : gmap string (list Card)) (rnd : nat → nat)
    (es : list Event) (g : GameManager) (e : Event) :
  play es (newGame data rnd) = Some g →
  offered (screen g) e = true →
  isSetup e = false →
  (e ≠ ConfirmScore → teams (fire e g) = teams g)
  ∧ (e = ConfirmScore →
       totalScore (teams (fire e g))
       = totalScore (teams g) + countCorrect (roundCards g)
       ∧ name <$> teams (fire e g) = name <$> teams g
       ∧ color <$> teams (fire e g) = color <$> teams g
       ∧ (∀ j t, teams g !! j = Some t →
            ∃ t', teams (fire e g) !! j = Some t' ∧ score t ≤ score t')).
Proof.
  intros Hplay Hoff Hset. pose proof (session_inv _ _ _ _ Hplay) as Hinv.
  split; [intros; by apply teams_step|]. intros ->.
  cbn in Hoff. apply bool_decide_eq_true_1 in Hoff.
  destruct (confirm_in_session g Hinv Hoff) as (i & t & Hi & Ht & _ & _ & Heq).
  assert (teams (fire ConfirmScore g)
          = <[i := addScore (countCorrect (roundCards g)) t]> (teams g)) as ->.
  { rewrite Heq. cbn. by case_bool_decide; destruct g. }
  split; [by apply totalScore_insert|].
  destruct (names_insert (teams g) i t (countCorrect (roundCards g)) Ht) as [-> ->].
  split; [done|]. split; [done|].
  intros j t0 Hj. destruct (decide (i = j)) as [->|Hne].
  - rewrite list_lookup_insert_eq by (by apply lookup_lt_Some in Hj).
    eexists. split; [done|]. simplify_eq. cbn. lia.
  - rewrite list_lookup_insert_ne by done. eauto.
Qed.

Lemma session_points_change_only_at_confirmation_witness :
  teams (fire CorrectBtn demoPlaying) = teams demoPlaying
  ∧ totalScore (teams (fire ConfirmScore demoDuoReview))
    = totalScore (teams demoDuoReview) + 1.
Proof.
  split.
  - apply (session_points_change_only_at_confirmation demoData (fun k => k)
             [PlayNow; TeamCount 2; SkipCountdown] demoPlaying CorrectBtn);
      [vm_compute; reflexivity|reflexivity|reflexivity|discriminate].
  - destruct (session_points_change_only_at_confirmation demoData (fun k => k)
                demoDuoRound demoDuoReview ConfirmScore) as [_ H];
      [vm_compute; reflexivity|reflexivity|reflexivity|].
    destruct (H eq_refl) as [-> _]. reflexivity.
Defined.

(** ** Sessions: the provisional score and the pool *)

Lemma nextCard_detail g :
  activeCards g ≠ [] →
  ∃ pool i d,
    nextCard g =
      (Normal tt, set_currentCardIndex i (set_shuffledCards pool (set_draws d g)))
    ∧ i < length pool
    ∧ (pool = shuffledCards g ∨ pool ≡ₚ activeCards g).
Proof.
  intros Hne.
  destruct (decide (currentCardIndex g + 1 < length (shuffledCards g))) as [Hlt|Hge].
  - exists (shuffledCards g), (currentCardIndex g + 1), (draws g).
    rewrite (nextCard_advance g Hlt). split; [by destruct g|]. split; [done|by left].
  - destruct (nextCard_replenish g) as (pool & Hperm & ->); [lia|done|].
    exists pool, 0, (draws g + (length (activeCards g) - 1)).
    split; [done|]. split; [|by right]. rewrite (Permutation_length Hperm).
    destruct (activeCards g); [done|simpl; lia].
Qed.

Lemma resolveCard_detail st g :
  serving g →
  ∃ card pool i d,
    shuffledCards g !! currentCardIndex g = Some card
    ∧ resolveCard st g =
        (Normal tt,
         set_currentCardIndex i
           (set_shuffledCards pool
              (set_draws d
                 (set_roundScore
                    (roundScore g + (if decide (st = correct) then 1 else 0))
                    (set_roundCards
                       (roundCards g ++ [MkEntry (targetWord card) st]) g)))))
    ∧ i < length pool
    ∧ (pool = shuffledCards g ∨ pool ≡ₚ activeCards g).
Proof.
  intros [Hidx Hne].
  destruct (lookup_lt_is_Some_2 _ _ Hidx) as [card Hcard].
  set (rc := roundCards g ++ [MkEntry (targetWord card) st]).
  set (rs := roundScore g + (if decide (st = correct) then 1 else 0)).
  assert (resolveCard st g = nextCard (set_roundScore rs (set_roundCards rc g))) as ->.
  { subst rc rs. destruct st; unfold resolveCard, handleCorrect, handlePass;
      js; cbn; rewrite Hcard; destruct g; cbn; rewrite ?Nat.add_0_r; reflexivity. }
  destruct (nextCard_detail (set_roundScore rs (set_roundCards rc g)))
    as (pool & i & d & -> & Hi & Hpool); [by destruct g|].
  exists card, pool, i, d. split; [done|]. split; [done|]. split; [done|].
  by destruct g.
Qed.

Lemma inv2_new data rnd : inv2 (newGame data rnd).
Proof. split; cbn; done. Qed.

Ltac inv2_open Hinv2 g :=
  destruct Hinv2 as [J1 J2];
  destruct g; unfold activeCards in *; cbn in *; subst.

Ltac inv2_finish := split; cbn; unfold activeCards; cbn; intros; try done; auto.

Lemma inv2_startRound g live :
  inv g → inv2 g → screen g = GET_READY →
  inv2 (after startRound (set_intervals live g)).
Proof.
  intros Hinv Hinv2 Hs.
  destruct (inv_current g Hinv) as (i & t & c & Hi & Ht & Hc & HT & Hst);
    [by rewrite Hs|].
  unfold after. erewrite startRound_effect; [|by destruct g ..].
  inv2_open Hinv2 g. inv2_finish.
Qed.

Lemma inv2_set_countdownTime v g : inv2 g → inv2 (set_countdownTime v g).
Proof. intros Hinv2. inv2_open Hinv2 g. inv2_finish. Qed.

Lemma inv2_fire e g :
  inv g → inv2 g → offered (screen g) e = true → inv2 (fire e g).
Proof.
  intros Hinv Hinv2 Hoff. destruct e; cbn in Hoff;
    try apply bool_decide_eq_true_1 in Hoff.
  - inv2_open Hinv2 g. inv2_finish.
  - unfold fire, handler, after.
    destruct (decide (activeCards g = [])) as [He|Hne].
    { rewrite (setup_no_cards teamCount g He). unfold seatTeams.
      inv2_open Hinv2 g. inv2_finish. }
    destruct (setup_cards teamCount g Hne) as (pool & Hperm & ->).
    destruct teamCount as [|n].
    + rewrite startCountdown_throws by (destruct g; reflexivity).
      unfold seatTeams. inv2_open Hinv2 g. inv2_finish.
    + match goal with |- context [startCountdown ?x] => set (G := x) end.
      assert (currentTeamIndex G = Some 0) as Hi by (destruct g; reflexivity).
      assert (teams G !! 0 = Some (makeTeam 0)) as Ht.
      { replace (teams G) with (pushTeams (S n) 0 []) by (destruct g; reflexivity).
        apply pushTeams_lookup. lia. }
      rewrite (startCountdown_effect G 0 (makeTeam 0) Hi Ht).
      clear Hi Ht. subst G. unfold seatTeams.
      set (ts := pushTeams (S n) 0 []) in *. clearbody ts.
      inv2_open Hinv2 g. inv2_finish.
  - destruct (toggleDeck_effect deck g) as [decks Hd].
    assert (fire (DeckOption deck) g = set_selectedDecks decks g) as ->.
    { rewrite <- Hd. unfold fire, after, handler. js.
      by destruct (toggleDeck deck g) as [[] ?]. }
    inv2_open Hinv2 g. inv2_finish.
  - inv2_open Hinv2 g. inv2_finish.
  - destruct (inv_current g Hinv) as (i & t & c & Hi & Ht & Hc & HT & Hst);
      [by rewrite Hoff|].
    unfold fire, handler, after. rewrite (startCountdown_effect g i t Hi Ht).
    inv2_open Hinv2 g. inv2_finish.
  - unfold fire, after, handler. rewrite resetGame_effect.
    inv2_open Hinv2 g. inv2_finish.
  - unfold fire, handler, after. rewrite skipCountdown_effect.
    by apply inv2_startRound.
  - destruct (inv_play g Hinv) as (_ & _ & Hserv & _); [by rewrite Hoff|].
    destruct (resolveCard_detail correct g Hserv)
      as (card & pool & i & d & _ & Heq & _ & Hpool).
    unfold fire, handler, after. change handleCorrect with (resolveCard correct).
    rewrite Heq. inv2_open Hinv2 g. inv2_finish.
    + unfold countCorrect in *. rewrite filter_app, length_app, J1 by done.
      cbn. repeat case_decide; try done; cbn; lia.
    + destruct Hpool as [->|Hp]; auto.
  - destruct (inv_play g Hinv) as (_ & _ & Hserv & _); [by rewrite Hoff|].
    destruct (resolveCard_detail skipped g Hserv)
      as (card & pool & i & d & _ & Heq & _ & Hpool).
    unfold fire, handler, after. change handlePass with (resolveCard skipped).
    rewrite Heq. inv2_open Hinv2 g. inv2_finish.
    + unfold countCorrect in *. rewrite filter_app, length_app, J1 by done.
      cbn. repeat case_decide; try done; cbn; lia.
    + destruct Hpool as [->|Hp]; auto.
  - destruct (confirm_in_session g Hinv Hoff) as (i & t & _ & _ & _ & _ & Heq).
    rewrite Heq. cbn. case_bool_decide; inv2_open Hinv2 g; inv2_finish.
  - destruct (inv_current g Hinv) as (_ & _ & _ & _ & _ & _ & _ & Hst);
      [by rewrite Hoff|]. rewrite Hoff in Hst.
    unfold fire, after, handler. destruct (isPaused g) eqn:Hp.
    + rewrite (togglePause_resumes g Hst Hp). inv2_open Hinv2 g. inv2_finish.
    + rewrite (togglePause_pauses g Hst Hp). inv2_open Hinv2 g. inv2_finish.
  - destruct confirmed; [|done].
    unfold fire, after, handler. rewrite quitGame_effect.
    inv2_open Hinv2 g. inv2_finish.
  - unfold fire, after, handler.
    destruct (toggleCardStatus_frame index g) as (rc & -> & _).
    inv2_open Hinv2 g. inv2_finish.
  - unfold fire, handler, after. js. cbn.
    destruct (intervals g !! handle) as [[]|] eqn:Hh; [| |done].
    + destruct (inv_timer g Hinv _ Hh) as (? & ? & Hp).
      rewrite (updateTimer_effect g Hp).
      case_bool_decide; inv2_open Hinv2 g; inv2_finish.
    + destruct (inv_countdown g Hinv _ Hh) as (Hs & ?).
      rewrite countdownTick_effect.
      case_bool_decide; [|by apply inv2_set_countdownTime].
      set (g' := set_countdownTime (countdownTime g - 1)%Z g).
      replace (set_intervals _ g')
        with (set_intervals (cancel (countdownInterval g) (intervals g)) g')
        by (by destruct g).
      apply (inv2_startRound g');
        [by apply inv_set_countdownTime|by apply inv2_set_countdownTime
        |by destruct g].
Qed.

Lemma inv2_play_session es : ∀ g g',
  inv g → inv2 g → play es g = Some g' → inv2 g'.
Proof.
  induction es as [|e es IH]; intros g g' Hinv Hinv2 Hplay; simpl in Hplay.
  - by simplify_eq.
  - destruct (offered (screen g) e) eqn:Hoff; [|done].
    eapply IH; [| |done]; [by apply inv_fire|by apply inv2_fire].
Qed.

Lemma session_inv2 data rnd es g : play es (newGame data rnd) = Some g → inv2 g.
Proof.
  intros H. eapply inv2_play_session; [apply inv_new|apply inv2_new|done].
Qed.

(** X13. All along a session, while the game is PLAYING the provisional
    score on display is the number of correct entries in the round
    record: nothing counts a card twice or forgets one, paused or not. *)
Theorem provisional_score_counts_correct
    (data : gmap string (list Card)) (rnd : nat → nat)
    (es : list Event) (g : GameManager) :
  play es (newGame data rnd) = Some g →
  screen g = PLAYING →
  roundScore g = countCorrect (roundCards g).
Proof.
  intros Hplay Hs. by apply (inv_provisional g (session_inv2 _ _ _ _ Hplay)).
Qed.

Lemma provisional_score_counts_correct_witness :
  roundScore demoTwoCards = countCorrect (roundCards demoTwoCards).
Proof.
  apply (provisional_score_counts_correct demoData (fun k => k)
           [PlayNow; TeamCount 2; SkipCountdown; CorrectBtn; PassBtn]).
  - vm_compute. reflexivity.
  - reflexivity.
Defined.

Lemma elem_of_gatherActive data decks card :
  card ∈ gatherActive data decks ↔
  ∃ deck cards raw, deck ∈ decks ∧ data !! deck = Some cards
                    ∧ raw ∈ cards ∧ card = stamp deck raw.
Proof.
  unfold gatherActive. rewrite list_elem_of_In, in_flat_map. split.
  - intros (deck & Hd%list_elem_of_In & Hc%list_elem_of_In).
    destruct (data !! deck) as [cards|] eqn:E; [|by apply elem_of_nil in Hc].
    apply list_elem_of_fmap in Hc as (raw & -> & Hraw). eauto 10.
  - intros (deck & cards & raw & Hd & E & Hraw & ->).
    exists deck. split; [by apply list_elem_of_In|].
    rewrite E. apply list_elem_of_In, list_elem_of_fmap. eauto.
Qed.

(** X14. All along a session, while a game runs the pool is a
    rearrangement of the cards of the selected decks, every card once
    per deck entry. So the card under the cursor is a card of a selected
    deck, with that deck as its category and with its target word and
    forbidden words as loaded. *)
Theorem session_pool_is_selected_decks
    (data : gmap string (list Card)) (rnd : nat → nat)
    (es : list Event) (g : GameManager) :
  play es (newGame data rnd) = Some g →
  inPlay (screen g) = true →
  shuffledCards g ≡ₚ activeCards g
  ∧ ∃ card deck cards raw,
      shuffledCards g !! currentCardIndex g = Some card
      ∧ deck ∈ selectedDecks g ∧ cardData g !! deck = Some cards ∧ raw ∈ cards
      ∧ category card = Some deck
      ∧ targetWord card = targetWord raw
      ∧ forbiddenWords card = forbiddenWords raw.
Proof.
  intros Hplay Hscr.
  pose proof (session_inv _ _ _ _ Hplay) as Hinv.
  pose proof (inv_pool g (session_inv2 _ _ _ _ Hplay) Hscr) as Hperm.
  split; [done|].
  destruct (inv_current g Hinv Hscr) as (_ & _ & card & _ & _ & Hc & _).
  assert (card ∈ activeCards g) as Hin.
  { rewrite <- Hperm. by eapply list_elem_of_lookup_2. }
  apply elem_of_gatherActive in Hin as (deck & cards & raw & Hd & E & Hraw & ->).
  exists (stamp deck raw), deck, cards, raw. done.
Qed.

Lemma session_pool_is_selected_decks_witness :
  shuffledCards demoTwoCards ≡ₚ activeCards demoTwoCards.
Proof.
  refine (proj1 (session_pool_is_selected_decks demoData (fun k => k)
                   [PlayNow; TeamCount 2; SkipCountdown; CorrectBtn; PassBtn]
                   demoTwoCards _ _)).
  - vm_compute. reflexivity.
  - reflexivity.
Defined.

(** ** Card data without cards *)








(** ** [shuffleArray]: what can come out *)

Lemma shuffleLoop_ext {A} rnd rnd' i : ∀ k (a : list A),
  (∀ m, k ≤ m < k + i → rnd m = rnd' m) →
  shuffleLoop rnd k i a = shuffleLoop rnd' k i a.
Proof.
  induction i as [|i IH]; intros k a H; simpl; [done|].
  rewrite (H k) by lia. apply IH. intros m Hm. apply H. lia.
Qed.

Lemma shuffleLoop_S {A} rnd k i (a : list A) :
  shuffleLoop rnd k (S i) a
  = shuffleLoop rnd (S k) i (swap (S i) (rnd k mod (S i + 1)) a).
Proof. reflexivity. Qed.

Lemma swap_places {A} (i j : nat) (a : list A) x y :
  a !! i = Some x → a !! j = Some y → j ≤ i →
  length (swap i j a) = length a
  ∧ swap i j a !! i = Some y
  ∧ drop (S i) (swap i j a) = drop (S i) a.
Proof.
  intros Hi Hj Hle. unfold swap. rewrite Hi, Hj.
  pose proof (lookup_lt_Some _ _ _ Hi) as Hlen.
  split; [by rewrite !length_insert|]. split.
  - destruct (decide (j = i)) as [->|Hne].
    + rewrite list_lookup_insert_eq by (by rewrite length_insert). congruence.
    + rewrite list_lookup_insert_ne by done.
      by rewrite list_lookup_insert_eq.
  - rewrite !drop_insert_lt by lia. done.
Qed.

Lemma take_perm_of_drop {A} (n : nat) (a b : list A) :
  a ≡ₚ b → drop n a = drop n b → take n a ≡ₚ take n b.
Proof.
  intros Hp Hd. rewrite <- (take_drop n a), <- (take_drop n b), Hd in Hp.
  by apply Permutation_app_inv_r in Hp.
Qed.

Lemma shuffleLoop_reaches {A} i : ∀ (a b : list A) k,
  i < length a → length a = length b →
  drop (S i) a = drop (S i) b → take (S i) a ≡ₚ take (S i) b →
  ∃ rnd, shuffleLoop rnd k i a = b.
Proof.
  induction i as [|i IH]; intros a b k Hi Hlen Hdrop Htake.
  - exists (fun _ => 0). simpl.
    destruct a as [|x t]; [simpl in Hi; lia|].
    destruct b as [|y u]; [done|]. simpl in *.
    rewrite !take_0 in Htake. apply Permutation_singleton_inj in Htake.
    rewrite !drop_0 in Hdrop. congruence.
  - destruct (lookup_lt_is_Some_2 b (S i)) as [y Hy]; [lia|].
    destruct (lookup_lt_is_Some_2 a (S i)) as [x Hx]; [lia|].
    assert (y ∈ take (S (S i)) a) as Hin.
    { rewrite Htake. apply list_elem_of_lookup. exists (S i).
      by rewrite lookup_take_lt by lia. }
    apply list_elem_of_lookup in Hin as [j Hj].
    assert (j < S (S i)) as Hjlt.
    { apply lookup_lt_Some in Hj. rewrite length_take in Hj. lia. }
    rewrite lookup_take_lt in Hj by lia.
    destruct (swap_places (S i) j a x y Hx Hj) as (Hl1 & Hy1 & Hd1); [lia|].
    set (a1 := swap (S i) j a) in *.
    destruct (IH a1 b (S k)) as [rnd1 Hrnd1].
    + lia.
    + congruence.
    + rewrite (drop_S a1 y (S i) Hy1), (drop_S b y (S i) Hy). congruence.
    + assert (take (S (S i)) a1 ≡ₚ take (S (S i)) b) as Hp.
      { rewrite <- Htake. apply take_perm_of_drop; [apply swap_perm|done]. }
      rewrite (take_S_r a1 (S i) y Hy1), (take_S_r b (S i) y Hy) in Hp.
      by apply Permutation_app_inv_r in Hp.
    + exists (fun m => if decide (m = k) then j else rnd1 m).
      rewrite shuffleLoop_S, decide_True by done.
      rewrite (Nat.mod_small j (S i + 1)) by lia.
      fold a1. rewrite <- Hrnd1. apply shuffleLoop_ext.
      intros m Hm. by rewrite decide_False by lia.
Qed.

Lemma shuffleLoop_every_order {A} (l l2 : list A) (k : nat) :
  l ≡ₚ l2 → ∃ rnd, shuffleLoop rnd k (length l - 1) l = l2.
Proof.
  intros Hp. destruct l as [|x l].
  - apply Permutation_nil_l in Hp as <-. by exists (fun _ => 0).
  - apply shuffleLoop_reaches.
    + simpl. lia.
    + by apply Permutation_length.
    + rewrite !drop_ge; [done| |simpl; lia].
      rewrite <- (Permutation_length Hp). simpl. lia.
    + rewrite !take_ge; [done| |simpl; lia].
      rewrite <- (Permutation_length Hp). simpl. lia.
Qed.

Lemma shuffleLoop_same_numbers {A} rnd rnd2 (i : nat) : ∀ k k2 (a : list A),
  (∀ m, m < i → rnd2 (k2 + m) = rnd (k + m)) →
  shuffleLoop rnd2 k2 i a = shuffleLoop rnd k i a.
Proof.
  induction i as [|i IH]; intros k k2 a H; simpl; [done|].
  pose proof (H 0 ltac:(lia)) as H0. rewrite !Nat.add_0_r in H0. rewrite H0.
  apply IH. intros m Hm. specialize (H (S m) ltac:(lia)).
  by rewrite <- !Nat.add_succ_comm in H.
Qed.

(** X16. [shuffleArray] returns a rearrangement of its argument, of the
    same length, and leaves the game manager alone; it calls
    [Math.random] once per element but one, and its result depends on
    those numbers only; an array of at most one element comes back as it
    is, with no call of [Math.random]. *)
Theorem shuffleArray_rearranges (array : list Card) (g : GameManager) :
  ∃ shuffled,
    shuffleArray array g
    = (Normal shuffled, set_draws (draws g + (length array - 1)) g)
    ∧ shuffled ≡ₚ array
    ∧ length shuffled = length array
    ∧ (length array ≤ 1 → shuffled = array ∧ draws g + (length array - 1) = draws g)
    ∧ (∀ g2, (∀ m, m < length array - 1 →
                entropy g2 (draws g2 + m) = entropy g (draws g + m)) →
             fst (shuffleArray array g2) = Normal shuffled).
Proof.
  eexists. split; [reflexivity|]. split; [apply shuffleLoop_perm|].
  split; [apply shuffleLoop_length|]. split.
  - intros Hle. replace (length array - 1) with 0 by lia. simpl. split; [done|lia].
  - intros g2 H. cbn. f_equal. by apply shuffleLoop_same_numbers.
Qed.

Lemma shuffleArray_rearranges_witness :
  ∃ shuffled, fst (shuffleArray [lagos] demoGame) = Normal shuffled
              ∧ shuffled = [lagos].
Proof.
  destruct (shuffleArray_rearranges [lagos] demoGame) as (s & H1 & _ & _ & H4 & _).
  exists s. split; [by rewrite H1|]. apply H4. simpl. lia.
Defined.

(** X17. Every ordering of the array can come out of [shuffleArray]:
    for each rearrangement of the argument there is a run of
    [Math.random] that makes the loop produce exactly it. *)
Theorem shuffleArray_reaches_every_order (array target : list Card) (k : nat) :
  array ≡ₚ target →
  ∃ rnd, ∀ g, entropy g = rnd → draws g = k →
    shuffleArray array g
    = (Normal target, set_draws (k + (length array - 1)) g).
Proof.
  intros Hp. destruct (shuffleLoop_every_order array target k Hp) as [rnd Hrnd].
  exists rnd. intros g <- <-. unfold shuffleArray. by rewrite Hrnd.
Qed.

Lemma shuffleArray_reaches_every_order_witness :
  ∃ rnd, ∀ g, entropy g = rnd → draws g = 0 →
    shuffleArray [lagos; stamp "naija" lagos] g
    = (Normal [stamp "naija" lagos; lagos], set_draws (0 + (2 - 1)) g).
Proof.
  apply (shuffleArray_reaches_every_order
           [lagos; stamp "naija" lagos] [stamp "naija" lagos; lagos] 0).
  apply perm_swap.
Defined.

(** ** The scoreboards *)

Lemma descending_cons x l :
  descending (x :: l) ↔ Forall (fun y => score y ≤ score x) l ∧ descending l.
Proof.
  unfold descending. split.
  - intros H. split.
    + apply Forall_lookup. intros j y Hj. by apply (H 0 (S j) x y); [lia|..].
    + intros i j a b Hij Ha Hb. by apply (H (S i) (S j)); [lia|..].
  - intros [HF Hd] [|i] [|j] a b Hij Ha Hb; simplify_eq/=; try lia.
    + rewrite Forall_lookup in HF. by eapply HF.
    + apply (Hd i j a b); [lia|done|done].
Qed.

Lemma insertByScore_perm t l : insertByScore t l ≡ₚ t :: l.
Proof.
  induction l as [|u l IH]; simpl; [done|].
  case_bool_decide; [|done]. by rewrite IH, Permutation_swap.
Qed.

Lemma sortByScore_perm ts : sortByScore ts ≡ₚ ts.
Proof.
  induction ts as [|t ts IH]; simpl; [done|].
  by rewrite insertByScore_perm, IH.
Qed.

Lemma insertByScore_descending t l :
  descending l → descending (insertByScore t l).
Proof.
  induction l as [|u l IH]; intros Hd; simpl.
  - apply descending_cons. split; [done|]. intros ? ? ? ? ? H. done.
  - apply descending_cons in Hd as [HF Hd]. case_bool_decide as Hlt.
    + apply descending_cons. split; [|by apply IH].
      rewrite insertByScore_perm. constructor; [lia|done].
    + apply descending_cons. split.
      * constructor; [lia|]. eapply Forall_impl; [exact HF|]. cbn. lia.
      * by apply descending_cons.
Qed.

Lemma sortByScore_descending ts : descending (sortByScore ts).
Proof.
  induction ts as [|t ts IH]; simpl.
  - intros ? ? ? ? ? H. done.
  - by apply insertByScore_descending.
Qed.

Lemma insertByScore_stable s t l :
  filter (fun u => score u = s) (insertByScore t l)
  = filter (fun u => score u = s) (t :: l).
Proof.
  induction l as [|u l IH]; simpl; [done|].
  case_bool_decide as Hlt; [|done].
  rewrite filter_cons, IH, !filter_cons.
  repeat case_decide; try done; lia.
Qed.

Lemma sortByScore_stable s ts :
  filter (fun u => score u = s) (sortByScore ts)
  = filter (fun u => score u = s) ts.
Proof.
  induction ts as [|t ts IH]; simpl; [done|].
  by rewrite insertByScore_stable, !filter_cons, IH.
Qed.

(** Any other stable sort by falling score gives the same list. *)
Lemma stable_sort_unique (l1 : list Team) : ∀ l2,
  descending l1 → descending l2 →
  (∀ s, filter (fun u => score u = s) l1 = filter (fun u => score u = s) l2) →
  l1 = l2.
Proof.
  induction l1 as [|x l1 IH]; intros l2 H1 H2 Hf.
  - destruct l2 as [|y l2]; [done|].
    specialize (Hf (score y)). rewrite filter_nil, filter_cons_True in Hf; done.
  - destruct l2 as [|y l2].
    { specialize (Hf (score x)). rewrite filter_nil, filter_cons_True in Hf; done. }
    apply descending_cons in H1 as [F1 H1]. apply descending_cons in H2 as [F2 H2].
    assert (score x ≤ score y) as Hxy.
    { pose proof (Hf (score x)) as E. rewrite filter_cons_True in E by done.
      assert (x ∈ filter (fun u => score u = score x) (y :: l2)) as Hin
        by (rewrite <- E; by left).
      apply list_elem_of_filter in Hin as [_ [->|Hin]%elem_of_cons]; [done|].
      rewrite Forall_forall in F2. specialize (F2 x Hin). done. }
    assert (score y ≤ score x) as Hyx.
    { pose proof (Hf (score y)) as E. rewrite (filter_cons_True _ y) in E by done.
      assert (y ∈ filter (fun u => score u = score y) (x :: l1)) as Hin
        by (rewrite E; by left).
      apply list_elem_of_filter in Hin as [_ [->|Hin]%elem_of_cons]; [done|].
      rewrite Forall_forall in F1. specialize (F1 y Hin). done. }
    assert (x = y) as ->.
    { pose proof (Hf (score x)) as E.
      rewrite !filter_cons_True in E by lia. congruence. }
    f_equal. apply IH; [done|done|]. intros s. specialize (Hf s).
    rewrite !filter_cons in Hf. case_decide; congruence.
Qed.

Lemma head_first_best (ts : list Team) w :
  head (sortByScore ts) = Some w →
  ∃ i, ts !! i = Some w
       ∧ (∀ t, t ∈ ts → score t ≤ score w)
       ∧ (∀ j t, j < i → ts !! j = Some t → score t < score w).
Proof.
  intros Hhead. apply head_Some in Hhead as [rest Hsorted].
  assert (∀ t, t ∈ ts → score t ≤ score w) as Hmax.
  { intros t Ht. rewrite <- (sortByScore_perm ts), Hsorted in Ht.
    apply elem_of_cons in Ht as [->|Ht]; [done|].
    pose proof (sortByScore_descending ts) as Hd. rewrite Hsorted in Hd.
    apply descending_cons in Hd as [HF _]. rewrite Forall_forall in HF. auto. }
  pose proof (sortByScore_stable (score w) ts) as Hst.
  rewrite Hsorted, filter_cons_True in Hst by done.
  destruct (head_filter_Some (fun u => score u = score w) ts w)
    as (l1 & l2 & -> & Hl1); [by rewrite <- Hst|].
  exists (length l1). split; [by rewrite list_lookup_middle|].
  split; [done|]. intros j t Hj Ht.
  rewrite lookup_app_l in Ht by done.
  rewrite Forall_lookup in Hl1. specialize (Hl1 j t Ht). cbn in Hl1.
  assert (score t ≤ score w); [|lia].
  apply Hmax, elem_of_app. left. by eapply list_elem_of_lookup_2.
Qed.

(** X18. Both scoreboards list every team once, by falling score, teams
    of equal score in their playing order. The winner shown by
    [updateScoreboard] and the champion shown by [updateFinalScoreboard]
    are the same team: one with the highest score, and among those the
    first in playing order. With no team both end in a TypeError. *)
Theorem scoreboards_rank_teams (teams : list Team) :
  (teams = [] →
     updateScoreboard teams = Thrown ∧ updateFinalScoreboard teams = Thrown)
  ∧ (teams ≠ [] →
     ∃ board final i w,
       updateScoreboard teams = Normal board
       ∧ updateFinalScoreboard teams = Normal final
       ∧ rows board ≡ₚ teamRow <$> teams
       ∧ (∀ j k a b, j < k → rows board !! j = Some a → rows board !! k = Some b →
            rowScore b ≤ rowScore a)
       ∧ (∀ s, filter (fun r => rowScore r = s) (rows board)
               = teamRow <$> filter (fun t => score t = s) teams)
       ∧ (∀ k r, rows board !! k = Some r →
            finalRows final !! k
            = Some (MkRow (rowColor r) (positionLabel k +:+ " " +:+ rowName r)
                      (rowScore r)))
       ∧ length (finalRows final) = length teams
       ∧ teams !! i = Some w
       ∧ winnerName board = name w ∧ championName final = name w
       ∧ winnerScore board = pretty (score w) +:+ " points"
       ∧ championScore final = pretty (score w) +:+ " Total Points"
       ∧ (∀ t, t ∈ teams → score t ≤ score w)
       ∧ (∀ j t, j < i → teams !! j = Some t → score t < score w)).
Proof.
  split; [by intros ->|]. intros Hne.
  unfold updateScoreboard, updateFinalScoreboard.
  destruct (head (sortByScore teams)) as [w|] eqn:Hhead.
  2:{ apply head_None in Hhead. destruct Hne.
      apply Permutation_nil_r. by rewrite <- (sortByScore_perm teams), Hhead. }
  destruct (head_first_best teams w Hhead) as (i & Hi & Hmax & Hfirst).
  eexists _, _, i, w. split; [reflexivity|]. split; [reflexivity|]. cbn.
  split; [by rewrite sortByScore_perm|]. split.
  { intros j k a b Hjk Ha Hb. rewrite list_lookup_fmap in Ha, Hb.
    destruct (sortByScore teams !! j) as [ta|] eqn:Ea; simplify_eq/=.
    destruct (sortByScore teams !! k) as [tb|] eqn:Eb; simplify_eq/=.
    by apply (sortByScore_descending teams j k). }
  split.
  { intros s. rewrite <- (sortByScore_stable s teams).
    generalize (sortByScore teams). intros l.
    induction l as [|t l IH]; [done|]. rewrite fmap_cons, !filter_cons. cbn.
    case_decide; by rewrite IH. }
  split.
  { intros k r Hr. rewrite list_lookup_fmap in Hr. rewrite list_lookup_imap.
    destruct (sortByScore teams !! k) as [t|]; by simplify_eq/=. }
  split; [by rewrite length_imap, (Permutation_length (sortByScore_perm teams))|].
  done.
Qed.

Lemma scoreboards_rank_teams_witness :
  ∃ board, updateScoreboard (teams (fire ConfirmScore demoDuoReview)) = Normal board
           ∧ winnerName board = "Team 1".
Proof.
  destruct (proj2 (scoreboards_rank_teams (teams (fire ConfirmScore demoDuoReview))))
    as (board & final & i & w & Hb & _ & _ & _ & _ & _ & _ & Hi & Hw & _ & _ & _ & Hmax & _).
  - vm_compute. discriminate.
  - exists board. split; [done|]. rewrite Hw.
    assert (MkTeam "Team 1" 1 (Some "var(--team1-color)")
            ∈ teams (fire ConfirmScore demoDuoReview)) as H1 by (vm_compute; left).
    apply Hmax in H1. apply list_elem_of_lookup_2 in Hi.
    vm_compute in Hi.
    apply elem_of_cons in Hi as [->|Hi]; [reflexivity|].
    apply list_elem_of_singleton in Hi as ->. cbn in H1. lia.
Defined.

(** ** The review list *)

Lemma toggleCardStatus_at (g : GameManager) (k : nat) (item : RoundEntry) :
  roundCards g !! k = Some item →
  roundCards (after (toggleCardStatus (Z.of_nat k)) g)
  = <[k := flipStatus item]> (roundCards g).
Proof.
  intros Hitem. unfold toggleCardStatus, entryAt, after. js. cbn.
  rewrite bool_decide_eq_true_2 by lia. rewrite Nat2Z.id, Hitem. by destruct g.
Qed.

(** X19. The review list has one row per entry of the round record, in
    its order. The button of a row toggles the entry of that row: after
    the click the list differs in that row only, which keeps its word and
    its index and changes from Correct to Pass or back. The number shown
    with the list is the score that [confirmScore] would store. *)
Theorem review_button_toggles_its_row (g : GameManager) (k : nat) (row : ReviewRow) :
  (showReviewList (roundCards g)).1 !! k = Some row →
  let g' := after (toggleCardStatus (reviewClick row)) g in
  length (showReviewList (roundCards g)).1 = length (roundCards g)
  ∧ (showReviewList (roundCards g)).2 = roundScore (after confirmScore g)
  ∧ (showReviewList (roundCards g')).2 = roundScore (after confirmScore g')
  ∧ (∀ j, j ≠ k →
       (showReviewList (roundCards g')).1 !! j = (showReviewList (roundCards g)).1 !! j)
  ∧ ∃ row', (showReviewList (roundCards g')).1 !! k = Some row'
            ∧ reviewWord row' = reviewWord row
            ∧ reviewClick row' = reviewClick row
            ∧ ((reviewLabel row = "Correct" ∧ reviewClass row = "correct"
                ∧ reviewLabel row' = "Pass" ∧ reviewClass row' = "pass")
               ∨ (reviewLabel row = "Pass" ∧ reviewClass row = "pass"
                  ∧ reviewLabel row' = "Correct" ∧ reviewClass row' = "correct")).
Proof.
  cbn. rewrite list_lookup_imap. intros Hrow.
  destruct (roundCards g !! k) as [item|] eqn:Hitem; [|done].
  cbn in Hrow. injection Hrow as <-. cbn.
  rewrite !confirmScore_roundScore, (toggleCardStatus_at g k item Hitem).
  rewrite length_imap. split; [done|]. split; [done|]. split; [done|]. split.
  - intros j Hj. by rewrite !list_lookup_imap, list_lookup_insert_ne.
  - exists (reviewRow k (flipStatus item)).
    rewrite list_lookup_imap, list_lookup_insert_eq
      by (by eapply lookup_lt_Some). split; [done|].
    unfold reviewRow, flipStatus. cbn.
    destruct (status item); repeat case_decide; try done; cbn;
      (split; [done|]); (split; [done|]); [left|right]; done.
Qed.

Lemma review_button_toggles_its_row_witness :
  (showReviewList (roundCards (after (toggleCardStatus 0) demoTwoCards))).2
  = roundScore (after confirmScore (after (toggleCardStatus 0) demoTwoCards)).
Proof.
  apply (review_button_toggles_its_row demoTwoCards 0
           (MkReviewRow "Lagos" "correct" "Correct" 0)).
  vm_compute. reflexivity.
Defined.
